(** * Verification of the chess-trainer engine (MinimaxAgent)

    The development embeds the evaluator ([evaluateBoard]), the searcher
    ([minimax]) and the entry point ([findBestMove]) of the minimax agent,
    and settles the properties its specification states about them.

    The agent is written against chess.js.  The library is not part of the
    repository; it enters the development as an interface, [RulesOracle],
    whose methods carry the names the agent calls them by, together with the
    few facts about the library the agent relies on ([RulesOracleLaws]).
    Every theorem holds for every implementation of the interface; a small
    scripted implementation ([Script]) is used to run the agent on concrete
    positions. *)

From Stdlib Require Import ZArith String Ascii List Lia.
From stdpp Require Import base option list strings gmap.

Local Open Scope string_scope.
Local Open Scope Z_scope.

(** ** Data of the rules library that the agent reads *)

(** chess.js: [type Color = 'w' | 'b']. *)
Inductive Color := w | b.

(** chess.js: [type PieceSymbol = 'p' | 'n' | 'b' | 'r' | 'q' | 'k'];
    the constructors are the library's exported constants. *)
Inductive PieceSymbol := PAWN | KNIGHT | BISHOP | ROOK | QUEEN | KING.

(** The string a [PieceSymbol] is at run time: always a lower-case letter,
    whatever the piece's colour. *)
Definition symbol (t : PieceSymbol) : string :=
  match t with
  | PAWN => "p" | KNIGHT => "n" | BISHOP => "b"
  | ROOK => "r" | QUEEN => "q" | KING => "k"
  end.

(** An occupied entry of [game.board()]: [{ square, type, color }]; the agent
    reads [type] and [color]. *)
Record Piece := mkPiece { type : PieceSymbol; color : Color }.

(** [game.board()]: rows from rank 8 (index 0) down to rank 1 (index 7),
    columns from file a (index 0) to file h (index 7); [None] is [null]. *)
Abbreviation Board := (list (list (option Piece))).

(** A verbose move of [game.moves({ verbose: true })]; the agent hands the
    object back to [game.move] and reads its [san]. *)
Record Move := mkMove {
  from : string;
  to : string;
  promotion : option PieceSymbol;
  san : string
}.

#[global] Instance Color_eq_dec : EqDecision Color.
Proof. solve_decision. Defined.
#[global] Instance PieceSymbol_eq_dec : EqDecision PieceSymbol.
Proof. solve_decision. Defined.
#[global] Instance Piece_eq_dec : EqDecision Piece.
Proof. solve_decision. Defined.
#[global] Instance Move_eq_dec : EqDecision Move.
Proof. solve_decision. Defined.

(** ** Numbers

    The agent's scores are JavaScript numbers.  Every arithmetic operation of
    the agent is on integers far below 2^53, so they are exact and modelled
    in [Z]; the search bounds add the two infinities, on which the agent only
    compares and takes [Math.max] and [Math.min]. *)
Inductive number := NegInfinity | Num (z : Z) | Infinity.

#[global] Instance number_eq_dec : EqDecision number.
Proof. solve_decision. Defined.

(** [x < y] on numbers. *)
Definition num_lt (x y : number) : bool :=
  match x, y with
  | _, NegInfinity => false
  | NegInfinity, _ => true
  | Infinity, _ => false
  | Num _, Infinity => true
  | Num a, Num c => a <? c
  end.

(** [x > y] and [x <= y]. *)
Definition num_gt (x y : number) : bool := num_lt y x.
Definition num_le (x y : number) : bool := negb (num_lt y x).

Definition Math_max (x y : number) : number := if num_lt x y then y else x.
Definition Math_min (x y : number) : number := if num_lt y x then y else x.

(** The integer of a finite number. *)
Definition val (x : number) : Z :=
  match x with Num z => z | _ => 0 end.

(** An order embedding of the numbers below a bound [B] into the integers. *)
Definition key (B : Z) (x : number) : Z :=
  match x with NegInfinity => - B | Num z => z | Infinity => B end.
Definition bnd (x : number) : Z := Z.abs (val x) + 1.

(** What a score [r] returned by a search inside the bounds [alpha] and
    [beta] tells about the exhaustive score [v]: at or below [alpha] it is an
    upper bound of [v], at or above [beta] a lower bound, and strictly
    between the two it is [v]. *)
Definition bounds_value (r v alpha beta : number) : Prop :=
  (num_le r alpha = true → num_le v r = true)
  ∧ (num_lt alpha r = true → num_lt r beta = true → v = r)
  ∧ (num_le beta r = true → num_le r v = true).

(** ** The tables *)

(** [PIECE_VALUES]: an object keyed by the piece letter, lower case for the
    black pieces and upper case for the white ones. *)
Definition PIECE_VALUES : gmap string Z :=
  list_to_map [
    ("p", -100);
    ("n", -320);
    ("b", -330);
    ("r", -500);
    ("q", -900);
    ("k", -20000);
    ("P", 100);
    ("N", 320);
    ("B", 330);
    ("R", 500);
    ("Q", 900);
    ("K", 20000) ].

(** [POSITION_BONUSES]: an 8x8 table per upper-case piece letter. *)
Definition POSITION_BONUSES : gmap string (list (list Z)) :=
  list_to_map [
    ("P", [
      [0; 0; 0; 0; 0; 0; 0; 0];
      [50; 50; 50; 50; 50; 50; 50; 50];
      [10; 10; 20; 30; 30; 20; 10; 10];
      [5; 5; 10; 25; 25; 10; 5; 5];
      [0; 0; 0; 20; 20; 0; 0; 0];
      [5; -5; -10; 0; 0; -10; -5; 5];
      [5; 10; 10; -20; -20; 10; 10; 5];
      [0; 0; 0; 0; 0; 0; 0; 0] ]);
    ("N", [
      [-50; -40; -30; -30; -30; -30; -40; -50];
      [-40; -20; 0; 0; 0; 0; -20; -40];
      [-30; 0; 10; 15; 15; 10; 0; -30];
      [-30; 5; 15; 20; 20; 15; 5; -30];
      [-30; 0; 15; 20; 20; 15; 0; -30];
      [-30; 5; 10; 15; 15; 10; 5; -30];
      [-40; -20; 0; 5; 5; 0; -20; -40];
      [-50; -40; -30; -30; -30; -30; -40; -50] ]);
    ("B", [
      [-20; -10; -10; -10; -10; -10; -10; -20];
      [-10; 0; 0; 0; 0; 0; 0; -10];
      [-10; 0; 10; 10; 10; 10; 0; -10];
      [-10; 5; 5; 10; 10; 5; 5; -10];
      [-10; 0; 5; 10; 10; 5; 0; -10];
      [-10; 10; 10; 10; 10; 10; 10; -10];
      [-10; 5; 0; 0; 0; 0; 5; -10];
      [-20; -10; -10; -10; -10; -10; -10; -20] ]);
    ("R", [
      [0; 0; 0; 0; 0; 0; 0; 0];
      [5; 10; 10; 10; 10; 10; 10; 5];
      [-5; 0; 0; 0; 0; 0; 0; -5];
      [-5; 0; 0; 0; 0; 0; 0; -5];
      [-5; 0; 0; 0; 0; 0; 0; -5];
      [-5; 0; 0; 0; 0; 0; 0; -5];
      [-5; 0; 0; 0; 0; 0; 0; -5];
      [0; 0; 0; 5; 5; 0; 0; 0] ]);
    ("Q", [
      [-20; -10; -10; -5; -5; -10; -10; -20];
      [-10; 0; 0; 0; 0; 0; 0; -10];
      [-10; 0; 5; 5; 5; 5; 0; -10];
      [-5; 0; 5; 5; 5; 5; 0; -5];
      [0; 0; 5; 5; 5; 5; 0; -5];
      [-10; 5; 5; 5; 5; 5; 0; -10];
      [-10; 0; 5; 0; 0; 0; 0; -10];
      [-20; -10; -10; -5; -5; -10; -10; -20] ]);
    ("K", [
      [-30; -40; -40; -50; -50; -40; -40; -30];
      [-30; -40; -40; -50; -50; -40; -40; -30];
      [-30; -40; -40; -50; -50; -40; -40; -30];
      [-30; -40; -40; -50; -50; -40; -40; -30];
      [-20; -30; -30; -40; -40; -30; -30; -20];
      [-10; -20; -20; -20; -20; -20; -20; -10];
      [20; 20; 0; 0; 0; 0; 20; 20];
      [20; 30; 10; 0; 0; 10; 30; 20] ]) ].

(** ** getPositionBonus *)

(** [String.prototype.toUpperCase] on the letters the agent meets: an ASCII
    lower-case letter becomes its capital, every other ASCII character stays. *)
Definition toUpperCase_ascii (c : ascii) : ascii :=
  let n := nat_of_ascii c in
  if (Nat.leb 97 n && Nat.leb n 122)%bool then ascii_of_nat (n - 32) else c.

Fixpoint toUpperCase (s : string) : string :=
  match s with
  | EmptyString => EmptyString
  | String c s' => String (toUpperCase_ascii c) (toUpperCase s')
  end.

(** [bonus[i][j]]; [None] when the entry does not exist (the read is then not
    an integer). *)
Definition table_at (bonus : list (list Z)) (i j : nat) : option Z :=
  cells ← bonus !! i; cells !! j.

(** [getPositionBonus(piece, row, col)]. *)
Definition getPositionBonus (piece : string) (row col : nat) : option Z :=
  let pieceType := toUpperCase piece in
  match POSITION_BONUSES !! pieceType with
  | None => Some 0
  | Some bonus =>
      if decide (piece = toUpperCase piece)
      then (if decide (row ≤ 7)%nat then table_at bonus (7 - row) col else None)
      else Z.opp <$> table_at bonus row col
  end.

(** ** The rules library

    What the agent calls on a [Chess] instance.  [Chess] is the state of one
    instance; a method that mutates the instance is a function to the new
    state, a query is a function of the state.  [move] is [None] when
    chess.js throws (the move is not legal); [new_Chess] is [None] when the
    constructor throws (the FEN does not parse).  [Fen] is the FEN text,
    which the agent passes on unread. *)
Class RulesOracle := {
  Chess : Type;
  Fen : Type;
  new_Chess : Fen → option Chess;
  fen : Chess → Fen;
  board : Chess → Board;
  turn : Chess → Color;
  moves : Chess → list Move;
  move : Chess → Move → option Chess;
  undo : Chess → Chess;
  isCheckmate : Chess → bool;
  isDraw : Chess → bool;
  isStalemate : Chess → bool;
  isThreefoldRepetition : Chess → bool;
  isInsufficientMaterial : Chess → bool;
  isGameOver : Chess → bool
}.

(** What the agent relies on: a listed move can be played; [undo] takes back
    the move just played and restores the instance; the board has its eight
    rows; a game that is not over has a move; the FEN of a game loads. *)
Class RulesOracleLaws `{RulesOracle} : Prop := {
  move_legal : ∀ g m, m ∈ moves g → is_Some (move g m);
  undo_move : ∀ g m g', move g m = Some g' → undo g' = g;
  board_rows : ∀ g, length (board g) = 8%nat;
  moves_nonempty : ∀ g, isGameOver g = false → moves g ≠ [];
  new_Chess_fen : ∀ g, is_Some (new_Chess (fen g))
}.

(** [for (const x of xs) body]: the loop state is threaded through the
    iterations; an iteration that throws ends the loop with [None]. *)
Fixpoint for_each {A S : Type} (xs : list A) (body : A → S → option S) (s : S)
  : option S :=
  match xs with
  | [] => Some s
  | x :: xs' => s' ← body x s; for_each xs' body s'
  end.

(** The result of [minimax]: [{ score, move? }]. *)
Record Result := mkResult { score : number; r_move : option string }.

(** A store of [Chess] instances: object identities and their states. *)
Abbreviation store C := (gmap positive C).

(** [move || null] on an optional string: [undefined] and the empty string
    give [null]. *)
Definition or_null (m : option string) : option string :=
  match m with
  | Some s => if decide (s = "") then None else Some s
  | None => None
  end.

Section Agent.
Context `{RulesOracle}.

(** *** evaluateBoard *)

(** The material term of one occupied square:
    [PIECE_VALUES[square.type] * (square.color === 'w' ? 1 : -1)]. *)
Definition material (square : Piece) : option Z :=
  v ← PIECE_VALUES !! symbol (type square);
  Some (v * (if decide (color square = w) then 1 else -1)).

(** The body of the inner loop at [board[row][col]]. *)
Definition scan_square (bd : Board) (row col : nat) (score : Z) : option Z :=
  cells ← bd !! row;
  match cells !! col with
  | Some (Some square) =>
      m ← material square;
      let score := score + m in
      bonus ← getPositionBonus (symbol (type square)) row col;
      Some (score + bonus)
  | _ => Some score
  end.

(** The two nested loops over rows and columns 0..7. *)
Definition scan_board (bd : Board) (score : Z) : option Z :=
  for_each (seq 0 8) (λ row score,
    for_each (seq 0 8) (λ col score, scan_square bd row col score) score) score.

(** The mobility term: [moves.length * (game.turn() === 'w' ? 1 : -1) * 5]. *)
Definition mobility (game : Chess) : Z :=
  Z.of_nat (length (moves game)) * (if decide (turn game = w) then 1 else -1) * 5.

(** [evaluateBoard(game)]; only queries are made, the instance is not
    changed.  [None]: the call does not produce an integer. *)
Definition evaluateBoard (game : Chess) : option Z :=
  if isCheckmate game then
    Some (if decide (turn game = w) then -100000 else 100000)
  else if isDraw game || isStalemate game || isThreefoldRepetition game
          || isInsufficientMaterial game then
    Some 0
  else
    score ← scan_board (board game) 0;
    Some (score + mobility game).

(** *** minimax *)

(** The loop of the maximizing branch over the remaining moves, from the
    loop state [(alpha, maxScore, bestMove)] and the instance state [game].
    [search g a b] is the recursive call [minimax(game, depth - 1, a, b, false)]
    on the instance in state [g]. *)
Fixpoint for_max (search : Chess → number → number → option (Result * Chess))
    (ms : list Move) (game : Chess) (alpha beta maxScore : number)
    (bestMove : option Move) : option (number * option Move * Chess) :=
  match ms with
  | [] => Some (maxScore, bestMove, game)
  | m :: rest =>
      game ← move game m;
      '(evaluation, game) ← search game alpha beta;
      let game := undo game in
      let '(maxScore, bestMove) :=
        if num_gt (score evaluation) maxScore then (score evaluation, Some m)
        else (maxScore, bestMove) in
      let alpha := Math_max alpha maxScore in
      if num_le beta alpha then Some (maxScore, bestMove, game)
      else for_max search rest game alpha beta maxScore bestMove
  end.

(** The loop of the minimizing branch. *)
Fixpoint for_min (search : Chess → number → number → option (Result * Chess))
    (ms : list Move) (game : Chess) (alpha beta minScore : number)
    (bestMove : option Move) : option (number * option Move * Chess) :=
  match ms with
  | [] => Some (minScore, bestMove, game)
  | m :: rest =>
      game ← move game m;
      '(evaluation, game) ← search game alpha beta;
      let game := undo game in
      let '(minScore, bestMove) :=
        if num_lt (score evaluation) minScore then (score evaluation, Some m)
        else (minScore, bestMove) in
      let beta := Math_min beta minScore in
      if num_le beta alpha then Some (minScore, bestMove, game)
      else for_min search rest game alpha beta minScore bestMove
  end.

(** [minimax(game, depth, alpha, beta, isMaximizingPlayer)] on the instance
    in state [game]: the result and the state the instance is left in;
    [None] when a call into the library throws.  [depth] is a natural
    number, as every caller passes one. *)
Fixpoint minimax (game : Chess) (depth : nat) (alpha beta : number)
    (isMaximizingPlayer : bool) {struct depth} : option (Result * Chess) :=
  match depth with
  | O => s ← evaluateBoard game; Some (mkResult (Num s) None, game)
  | S depth' =>
      if isGameOver game then
        s ← evaluateBoard game; Some (mkResult (Num s) None, game)
      else
        let ms := moves game in
        if isMaximizingPlayer then
          '(maxScore, bestMove, game) ←
            for_max (λ g a b', minimax g depth' a b' false)
                    ms game alpha beta NegInfinity None;
          Some (mkResult maxScore (san <$> bestMove), game)
        else
          '(minScore, bestMove, game) ←
            for_min (λ g a b', minimax g depth' a b' true)
                    ms game alpha beta Infinity None;
          Some (mkResult minScore (san <$> bestMove), game)
  end.

(** *** findBestMove *)

(** A call on the instance [l] of the store: the callee runs on the state of
    [l] and leaves its final state there; no other instance is touched. *)
Definition on_instance {A : Type} (l : positive)
    (f : Chess → option (A * Chess)) (σ : store Chess)
  : option (A * store Chess) :=
  g ← σ !! l;
  '(a, g') ← f g;
  Some (a, <[l := g']> σ).

(** [findBestMove(game, depth, computerColor)] in the store [σ], [game]
    being the identity of the caller's instance: the returned notation (or
    [null]) and the store afterwards.  [new Chess(...)] allocates an
    instance of a fresh identity. *)
Definition findBestMove (game : positive) (depth : nat) (computerColor : Color)
    (σ : store Chess) : option (option string * store Chess) :=
  g ← σ !! game;
  copy ← new_Chess (fen g);
  let gameCopy := fresh (dom σ) in
  let σ := <[gameCopy := copy]> σ in
  c ← σ !! gameCopy;
  let isMaximizingPlayer := bool_decide (turn c = computerColor) in
  '(res, σ) ← on_instance gameCopy
     (λ g, minimax g depth NegInfinity Infinity isMaximizingPlayer) σ;
  Some (or_null (r_move res), σ).

End Agent.

(** ** Exhaustive minimax, the reference of the pruning-equivalence property

    The specification compares [minimax] with "exhaustive minimax without
    pruning" over the same move order.  This is that search, written on
    positions as values: every listed move of a position is tried on that
    position, the child is valued by the search one ply shallower with the
    roles exchanged, the first move with a strictly better score is kept
    ([>] when maximizing, [<] when minimizing); depth 0 or a finished game
    gives the static evaluation and no move.  There are no bounds and no
    early exit. *)
Section Exhaustive.
Context `{RulesOracle}.

Fixpoint best_max (value : Chess → option Result) (game : Chess)
    (ms : list Move) (maxScore : number) (bestMove : option Move)
  : option (number * option Move) :=
  match ms with
  | [] => Some (maxScore, bestMove)
  | m :: rest =>
      child ← move game m;
      evaluation ← value child;
      if num_gt (score evaluation) maxScore
      then best_max value game rest (score evaluation) (Some m)
      else best_max value game rest maxScore bestMove
  end.

Fixpoint best_min (value : Chess → option Result) (game : Chess)
    (ms : list Move) (minScore : number) (bestMove : option Move)
  : option (number * option Move) :=
  match ms with
  | [] => Some (minScore, bestMove)
  | m :: rest =>
      child ← move game m;
      evaluation ← value child;
      if num_lt (score evaluation) minScore
      then best_min value game rest (score evaluation) (Some m)
      else best_min value game rest minScore bestMove
  end.

Fixpoint minimax_exhaustive (game : Chess) (depth : nat)
    (isMaximizingPlayer : bool) {struct depth} : option Result :=
  match depth with
  | O => s ← evaluateBoard game; Some (mkResult (Num s) None)
  | S depth' =>
      if isGameOver game then
        s ← evaluateBoard game; Some (mkResult (Num s) None)
      else if isMaximizingPlayer then
        '(maxScore, bestMove) ←
          best_max (λ g, minimax_exhaustive g depth' false)
                   game (moves game) NegInfinity None;
        Some (mkResult maxScore (san <$> bestMove))
      else
        '(minScore, bestMove) ←
          best_min (λ g, minimax_exhaustive g depth' true)
                   game (moves game) Infinity None;
        Some (mkResult minScore (san <$> bestMove))
  end.

End Exhaustive.

(** ** A scripted rules library

    An implementation of the interface that replays a game tree written
    down in advance: a position lists its legal moves with the positions
    they lead to.  The status queries are derived the way chess.js derives
    them (checkmate: in check and no move; stalemate: not in check and no
    move; draw: fifty-move counter expired, stalemate, insufficient
    material or repetition; game over: checkmate, stalemate or draw), and an
    instance keeps the stack of positions that [undo] pops. *)
Module Script.

#[warnings="-register-all"]
Inductive Position := mkPosition {
  placement : Board;
  toMove : Color;
  inCheck : bool;
  fiftyMoves : bool;
  insufficient : bool;
  repeated : bool;
  replies : list (Move * Position)
}.

Record Instance := mkInstance { current : Position; history : list Position }.

(** The board as chess.js returns it: eight rows of eight entries. *)
Definition square_at (bd : Board) (sq : nat * nat) : option Piece :=
  match bd !! sq.1 with
  | Some cells => default None (cells !! sq.2)
  | None => None
  end.

Definition board8 (bd : Board) : Board :=
  map (λ row, map (λ col, square_at bd (row, col)) (seq 0 8)) (seq 0 8).

Fixpoint reply (rs : list (Move * Position)) (m : Move) : option Position :=
  match rs with
  | [] => None
  | (m', p) :: rs' => if decide (m = m') then Some p else reply rs' m
  end.

Definition noMoves (p : Position) : bool :=
  match replies p with [] => true | _ => false end.

Definition checkmate (p : Position) : bool := inCheck p && noMoves p.
Definition stalemate (p : Position) : bool := negb (inCheck p) && noMoves p.
Definition draw (p : Position) : bool :=
  fiftyMoves p || stalemate p || insufficient p || repeated p.

#[global] Instance oracle : RulesOracle := {|
  Chess := Instance;
  Fen := Position;
  new_Chess := λ p, Some (mkInstance p []);
  fen := current;
  board := λ g, board8 (placement (current g));
  turn := λ g, toMove (current g);
  moves := λ g, fst <$> replies (current g);
  move := λ g m,
    p ← reply (replies (current g)) m;
    Some (mkInstance p (current g :: history g));
  undo := λ g,
    match history g with
    | [] => g
    | p :: h => mkInstance p h
    end;
  isCheckmate := λ g, checkmate (current g);
  isDraw := λ g, draw (current g);
  isStalemate := λ g, stalemate (current g);
  isThreefoldRepetition := λ g, repeated (current g);
  isInsufficientMaterial := λ g, insufficient (current g);
  isGameOver := λ g,
    checkmate (current g) || stalemate (current g) || draw (current g)
|}.

(** *** Writing positions down *)

(** The entries a character of a FEN placement field stands for. *)
Definition fen_char (c : ascii) : list (option Piece) :=
  match String c "" with
  | "P" => [Some (mkPiece PAWN w)]   | "p" => [Some (mkPiece PAWN b)]
  | "N" => [Some (mkPiece KNIGHT w)] | "n" => [Some (mkPiece KNIGHT b)]
  | "B" => [Some (mkPiece BISHOP w)] | "b" => [Some (mkPiece BISHOP b)]
  | "R" => [Some (mkPiece ROOK w)]   | "r" => [Some (mkPiece ROOK b)]
  | "Q" => [Some (mkPiece QUEEN w)]  | "q" => [Some (mkPiece QUEEN b)]
  | "K" => [Some (mkPiece KING w)]   | "k" => [Some (mkPiece KING b)]
  | _ => replicate (nat_of_ascii c - 48) None
  end.

Fixpoint fen_rows (s : string) (row : list (option Piece)) : Board :=
  match s with
  | EmptyString => [row]
  | String c s' =>
      if decide (c = "/"%char) then row :: fen_rows s' []
      else fen_rows s' (row ++ fen_char c)
  end.

(** The board of a FEN placement field. *)
Definition fen_board (s : string) : Board := fen_rows s [].

(** Row and column of a square name, [e4] being row 4, column 4. *)
Definition coords (square : string) : nat * nat :=
  match square with
  | String f (String r _) => ((56 - nat_of_ascii r)%nat, (nat_of_ascii f - 97)%nat)
  | _ => (0%nat, 0%nat)
  end.

Definition put (bd : Board) (sq : nat * nat) (x : option Piece) : Board :=
  match bd !! sq.1 with
  | Some cells => <[sq.1 := <[sq.2 := x]> cells]> bd
  | None => bd
  end.

(** The board after the piece on [from m] went to [to m]. *)
Definition relocate (bd : Board) (m : Move) : Board :=
  put (put bd (coords (to m)) (square_at bd (coords (from m))))
      (coords (from m)) None.

Definition mv (s f t : string) : Move := mkMove f t None s.

(** A position of an ordinary middle of a game: nobody in check, no draw. *)
Definition quiet (bd : Board) (c : Color) (rs : list (Move * Position)) : Position :=
  mkPosition bd c false false false false rs.

Definition other (c : Color) : Color := match c with w => b | b => w end.

(** The move [m] of [c] on the board [bd] with the position it leads to,
    whose own replies are scripted by [below]; [check] tells whether the
    move gives check. *)
Definition after (bd : Board) (c : Color) (check : bool) (m : Move)
    (below : Board → list (Move * Position)) : Move * Position :=
  (m, mkPosition (relocate bd m) (other c) check false false false
        (below (relocate bd m))).

(** The replies [ms] of [c] on the board [bd], none giving check, each
    leading to a position scripted by [below]. *)
Definition ply (bd : Board) (c : Color) (ms : list Move)
    (below : Board → list (Move * Position)) : list (Move * Position) :=
  map (λ m, after bd c false m below) ms.

(** The last ply of a script: the moves are listed, the positions they lead
    to are not scripted any further. *)
Definition horizon (bd : Board) (c : Color) (ms : list Move)
  : list (Move * Position) :=
  ply bd c ms (λ _, []).

(** A king move. *)
Definition K (f t : string) : Move := mv ("K" ++ t) f t.

(** An instance freshly loaded with a position: nothing to undo. *)
Definition loaded (p : Position) : Instance := mkInstance p [].

(** A store holding one game, under the identity 1. *)
Definition only (p : Position) : store Instance := {[ 1%positive := loaded p ]}.

(** *** King and pawn against king, Black to move

    [7k/8/5K2/6P1/8/8/8/8 b], scripted three plies deep: the black king has
    the two moves Kh7 and Kg8; after either, White has six moves; after
    each of those the moves of the black king are listed. *)
Definition kp_board : Board := fen_board "7k/8/5K2/6P1/8/8/8/8".

Definition kp_black : Position :=
  quiet kp_board b [
    after kp_board b false (K "h8" "h7") (λ bd, [
      after bd w false (K "f6" "e7") (λ bd, horizon bd b
        [K "h7" "g8"; K "h7" "h8"; K "h7" "g6"; K "h7" "g7"]);
      after bd w false (K "f6" "f7") (λ bd, horizon bd b
        [K "h7" "h8"]);
      after bd w false (K "f6" "f5") (λ bd, horizon bd b
        [K "h7" "g8"; K "h7" "h8"; K "h7" "g7"]);
      after bd w false (K "f6" "e5") (λ bd, horizon bd b
        [K "h7" "g8"; K "h7" "h8"; K "h7" "g6"; K "h7" "g7"]);
      after bd w false (K "f6" "e6") (λ bd, horizon bd b
        [K "h7" "g8"; K "h7" "h8"; K "h7" "g6"; K "h7" "g7"]);
      after bd w true (mv "g6+" "g5" "g6") (λ bd, horizon bd b
        [K "h7" "g8"; K "h7" "h8"; K "h7" "h6"]) ]);
    after kp_board b false (K "h8" "g8") (λ bd, [
      after bd w false (K "f6" "e7") (λ bd, horizon bd b
        [K "g8" "h8"; K "g8" "h7"; K "g8" "g7"]);
      after bd w false (K "f6" "g6") (λ bd, horizon bd b
        [K "g8" "h8"; K "g8" "f8"]);
      after bd w false (K "f6" "f5") (λ bd, horizon bd b
        [K "g8" "h8"; K "g8" "h7"; K "g8" "g7"; K "g8" "f7"; K "g8" "f8"]);
      after bd w false (K "f6" "e5") (λ bd, horizon bd b
        [K "g8" "h8"; K "g8" "h7"; K "g8" "g7"; K "g8" "f7"; K "g8" "f8"]);
      after bd w false (K "f6" "e6") (λ bd, horizon bd b
        [K "g8" "h8"; K "g8" "h7"; K "g8" "g7"; K "g8" "f8"]);
      after bd w false (mv "g6" "g5" "g6") (λ bd, horizon bd b
        [K "g8" "h8"; K "g8" "f8"]) ]) ].

(** *** A position and its colour-flipped mirror images

    [4k3/8/8/8/4P3/8/8/4K3 w], its image under exchanging the colours and
    the ranks, [4k3/8/8/4p3/8/8/8/4K3 b], and its image under exchanging the
    colours, the ranks and the files, [3k4/8/8/3p4/8/8/8/3K4 b].  Each side
    to move has six moves. *)
Definition pawn_e4 : Position :=
  let bd := fen_board "4k3/8/8/8/4P3/8/8/4K3" in
  quiet bd w (horizon bd w [
    mv "e5" "e4" "e5"; mv "Kd2" "e1" "d2"; mv "Ke2" "e1" "e2";
    mv "Kf2" "e1" "f2"; mv "Kf1" "e1" "f1"; mv "Kd1" "e1" "d1" ]).

Definition pawn_e4_mirrored : Position :=
  let bd := fen_board "4k3/8/8/4p3/8/8/8/4K3" in
  quiet bd b (horizon bd b [
    mv "Kf8" "e8" "f8"; mv "Kf7" "e8" "f7"; mv "Ke7" "e8" "e7";
    mv "Kd7" "e8" "d7"; mv "Kd8" "e8" "d8"; mv "e4" "e5" "e4" ]).

Definition pawn_e4_rotated : Position :=
  let bd := fen_board "3k4/8/8/3p4/8/8/8/3K4" in
  quiet bd b (horizon bd b [
    mv "Ke8" "d8" "e8"; mv "Ke7" "d8" "e7"; mv "Kd7" "d8" "d7";
    mv "Kc7" "d8" "c7"; mv "Kc8" "d8" "c8"; mv "d4" "d5" "d4" ]).

(** *** Finished games

    [7k/5KQ1/8/8/8/8/8/8 b]: Black is mated; once with a fresh fifty-move
    counter, once with the counter at 100 half-moves.
    [7k/5K2/6Q1/8/8/8/8/8 b]: Black is stalemated. *)
Definition mated : Position :=
  mkPosition (fen_board "7k/5KQ1/8/8/8/8/8/8") b true false false false [].

Definition mated_fifty : Position :=
  mkPosition (fen_board "7k/5KQ1/8/8/8/8/8/8") b true true false false [].

Definition stalemated : Position :=
  mkPosition (fen_board "7k/5K2/6Q1/8/8/8/8/8") b false false false false [].

(** *** The standard starting position

    Its twenty first moves, and Black's twenty answers to each. *)
Definition start_board : Board :=
  fen_board "rnbqkbnr/pppppppp/8/8/8/8/PPPPPPPP/RNBQKBNR".

Definition white_first : list Move := [
  mv "a3" "a2" "a3"; mv "a4" "a2" "a4"; mv "b3" "b2" "b3"; mv "b4" "b2" "b4";
  mv "c3" "c2" "c3"; mv "c4" "c2" "c4"; mv "d3" "d2" "d3"; mv "d4" "d2" "d4";
  mv "e3" "e2" "e3"; mv "e4" "e2" "e4"; mv "f3" "f2" "f3"; mv "f4" "f2" "f4";
  mv "g3" "g2" "g3"; mv "g4" "g2" "g4"; mv "h3" "h2" "h3"; mv "h4" "h2" "h4";
  mv "Na3" "b1" "a3"; mv "Nc3" "b1" "c3"; mv "Nf3" "g1" "f3"; mv "Nh3" "g1" "h3" ].

Definition black_first : list Move := [
  mv "Nc6" "b8" "c6"; mv "Na6" "b8" "a6"; mv "Nh6" "g8" "h6"; mv "Nf6" "g8" "f6";
  mv "a6" "a7" "a6"; mv "a5" "a7" "a5"; mv "b6" "b7" "b6"; mv "b5" "b7" "b5";
  mv "c6" "c7" "c6"; mv "c5" "c7" "c5"; mv "d6" "d7" "d6"; mv "d5" "d7" "d5";
  mv "e6" "e7" "e6"; mv "e5" "e7" "e5"; mv "f6" "f7" "f6"; mv "f5" "f7" "f5";
  mv "g6" "g7" "g6"; mv "g5" "g7" "g5"; mv "h6" "h7" "h6"; mv "h5" "h7" "h5" ].

Definition start : Position :=
  quiet start_board w
    (ply start_board w white_first (λ bd, horizon bd b black_first)).

End Script.

(** ** Vocabulary of the further properties *)

(** [x] is strictly better than [y] for the player to move: greater when
    maximizing, smaller when minimizing. *)
Definition better (isMaximizingPlayer : bool) (x y : number) : bool :=
  if isMaximizingPlayer then num_gt x y else num_lt x y.

(** The letters that are keys of [PIECE_VALUES]. *)
Definition piece_letters : list string :=
  ["p"; "n"; "b"; "r"; "q"; "k"; "P"; "N"; "B"; "R"; "Q"; "K"].

(** The leaves of the tree [minimax] walks from [game] with [depth] plies
    to go: the position itself when no ply is left or the game is over,
    otherwise the leaves below the positions its legal moves lead to. *)
Inductive leaf_of `{RulesOracle} : nat → Chess → Chess → Prop :=
  | leaf_depth game : leaf_of 0 game game
  | leaf_over depth game : isGameOver game = true → leaf_of depth game game
  | leaf_move depth game m child leaf :
      isGameOver game = false → m ∈ moves game → move game m = Some child →
      leaf_of depth child leaf → leaf_of (S depth) game leaf.

(** ** The game component (Chess.tsx), as far as it drives the agent

    The functions of the component that call the agent or the library:
    [makeMove], [makeComputerMove] with its timer callback, the effect that
    watches the game, and [onDrop].  A function is modelled by the state
    updates it requests, applied to the state record; the delay between the
    start of a timer and its callback is not modelled, the callback is a
    function of its own. *)
Module Component.

(** The argument of [makeMove]: [{ from, to, promotion? }]. *)
Record MoveRequest := mkRequest {
  req_from : string;
  req_to : string;
  req_promotion : option string
}.

(** An entry of [moveHistory]: the component's own [Move] type. *)
Record HistoryMove := mkHistoryMove {
  h_from : string;
  h_to : string;
  h_promotion : option string;
  h_san : string
}.

(** [game.move] on the two other arguments the component passes: a request
    object and a notation.  The answer is the move played and the new state
    of the instance; [None] when chess.js throws or returns [null], which
    the component treats alike. *)
Class MoveInput `{RulesOracle} := {
  move_object : Chess → MoveRequest → option (Move * Chess);
  move_san : Chess → string → option (Move * Chess)
}.

(** The state of the component that the modelled functions read or set;
    [game] is the identity of the instance held in the state,
    [computerTimeout] tells whether [computerTimeoutRef] holds a timer. *)
Record State := mkState {
  game : positive;
  moveHistory : list HistoryMove;
  gameOver : option string;
  playerColor : Color;
  computerThinking : bool;
  searchDepth : nat;
  computerTimeout : bool
}.

(** A value of [gameOver] used as a condition: a non-empty string. *)
Definition truthy (s : option string) : bool :=
  match s with
  | Some s => bool_decide (s ≠ "")
  | None => false
  end.

Section Functions.
Context `{MoveInput}.

(** [makeMove(move)], the callback of the render in which the state held
    [game]; [st] is the state its updates apply to.  The answer is the
    returned boolean, the state after the updates and the store. *)
Definition makeMove (game : positive) (move : MoveRequest) (st : State)
    (σ : store Chess) : bool * State * store Chess :=
  match σ !! game with
  | None => (false, st, σ)
  | Some g =>
      match new_Chess (fen g) with
      | None => (false, st, σ)
      | Some c =>
          let newGame := fresh (dom σ) in
          match move_object c move with
          | None => (false, st, <[newGame := c]> σ)
          | Some (result, c) =>
              let newMove :=
                mkHistoryMove (req_from move) (req_to move) (req_promotion move)
                              (san result) in
              (true,
               mkState newGame (moveHistory st ++ [newMove]) (gameOver st)
                       (playerColor st) (computerThinking st) (searchDepth st)
                       (computerTimeout st),
               <[newGame := c]> σ)
          end
      end
  end.

(** The [finally] block of the timer callback. *)
Definition finished (st : State) : State :=
  mkState (game st) (moveHistory st) (gameOver st) (playerColor st) false
          (searchDepth st) false.

(** The search the timer callback starts: the computer plays the colour
    the player does not. *)
Definition computerChoice (captured : State) (σ : store Chess)
  : option (option string * store Chess) :=
  let computerColor := if decide (playerColor captured = w) then b else w in
  findBestMove (game captured) (searchDepth captured) computerColor σ.

(** The callback [makeComputerMove] hands to [setTimeout], run when the
    timer fires: [captured] is the state of the render that created it,
    [st] the state its updates apply to. *)
Definition computerTurn (captured st : State) (σ : store Chess)
  : State * store Chess :=
  match computerChoice captured σ with
  | None => (finished st, σ)
  | Some (None, σ) => (finished st, σ)
  | Some (Some bestMoveSan, σ) =>
      if decide (bestMoveSan = "") then (finished st, σ) else
      match σ !! game captured with
      | None => (finished st, σ)
      | Some g =>
          match new_Chess (fen g) with
          | None => (finished st, σ)
          | Some c =>
              let gameCopy := fresh (dom σ) in
              match move_san c bestMoveSan with
              | None => (finished st, <[gameCopy := c]> σ)
              | Some (moveObj, c) =>
                  let σ := <[gameCopy := c]> σ in
                  let '(_, st, σ) :=
                    makeMove (game captured)
                      (mkRequest (from moveObj) (to moveObj)
                                 (symbol <$> promotion moveObj)) st σ in
                  (finished st, σ)
              end
          end
      end
  end.

(** [makeComputerMove()] up to the start of the timer. *)
Definition makeComputerMove (captured st : State) (σ : store Chess) : State :=
  match σ !! game captured with
  | None => st
  | Some g =>
      if truthy (gameOver captured) || bool_decide (turn g = playerColor captured)
      then st
      else mkState (game st) (moveHistory st) (gameOver st) (playerColor st)
                   true (searchDepth st) true
  end.

(** The effect that runs when the game, the player's colour or the
    thinking flag changed. *)
Definition gameEffect (st : State) (σ : store Chess) : State :=
  match σ !! game st with
  | None => st
  | Some g =>
      if isGameOver g then
        let message :=
          if isCheckmate g then
            Some ("Checkmate! " ++ (if decide (turn g = w) then "Black" else "White")
                  ++ " wins!")
          else if isDraw g then Some "Draw!"
          else if isStalemate g then Some "Stalemate!"
          else if isThreefoldRepetition g then Some "Draw by threefold repetition!"
          else if isInsufficientMaterial g then Some "Draw by insufficient material!"
          else gameOver st in
        mkState (game st) (moveHistory st) message (playerColor st) false
                (searchDepth st) false
      else
        let cleared :=
          mkState (game st) (moveHistory st) None (playerColor st)
                  (computerThinking st) (searchDepth st) (computerTimeout st) in
        if bool_decide (turn g ≠ playerColor st) && negb (computerThinking st)
        then makeComputerMove st cleared σ
        else cleared
  end.

(** [onDrop({ sourceSquare, targetSquare })]: a piece dropped by the player;
    a promotion is always to the queen. *)
Definition onDrop (sourceSquare : string) (targetSquare : option string)
    (st : State) (σ : store Chess) : bool * State * store Chess :=
  match targetSquare with
  | None => (false, st, σ)
  | Some targetSquare =>
      match σ !! game st with
      | None => (false, st, σ)
      | Some g =>
          if bool_decide (turn g ≠ playerColor st) || computerThinking st
             || truthy (gameOver st)
          then (false, st, σ)
          else makeMove (game st) (mkRequest sourceSquare targetSquare (Some "q"))
                        st σ
      end
  end.

End Functions.
End Component.

(** The scripted library on the component's arguments: a request is answered
    with the first listed move of the same squares (and the same promotion
    piece, if the move promotes), a notation with the first listed move of
    that notation. *)
Module ScriptInput.

Definition matches (request : Component.MoveRequest) (m : Move) : bool :=
  bool_decide (from m = Component.req_from request)
  && bool_decide (to m = Component.req_to request)
  && match promotion m with
     | Some p => bool_decide (Component.req_promotion request = Some (symbol p))
     | None => true
     end.

Definition play (g : Script.Instance) (found : option (Move * Script.Position))
  : option (Move * Script.Instance) :=
  '(m, p) ← found;
  Some (m, Script.mkInstance p (Script.current g :: Script.history g)).

#[global] Instance input : Component.MoveInput := {|
  Component.move_object := λ g request,
    play g (List.find (λ mp, matches request mp.1)
                      (Script.replies (Script.current g)));
  Component.move_san := λ g s,
    play g (List.find (λ mp, bool_decide (san mp.1 = s))
                      (Script.replies (Script.current g)))
|}.

(** The component holding the instance 1, the player being [player], idle,
    with search depth 2. *)
Definition idle (player : Color) : Component.State :=
  Component.mkState 1 [] None player false 2 false.

End ScriptInput.

(** * Properties *)

(** ** The tables and the squares *)

Lemma PIECE_VALUES_symbol t : is_Some (PIECE_VALUES !! symbol t).
Proof. destruct t; vm_compute; eauto. Qed.

(** The key [evaluateBoard] looks a piece up with is the lower-case letter:
    it never equals its own upper case, and its upper case has a full table. *)
Lemma POSITION_BONUSES_symbol t :
  ∃ bonus, POSITION_BONUSES !! toUpperCase (symbol t) = Some bonus
    ∧ length bonus = 8%nat
    ∧ Forall (λ cells, length cells = 8%nat) bonus
    ∧ symbol t ≠ toUpperCase (symbol t).
Proof.
  destruct t; eexists;
    (split; [vm_compute; reflexivity|]); (split; [reflexivity|]);
    (split; [repeat constructor | discriminate]).
Qed.

Lemma table_at_is_Some bonus i j :
  length bonus = 8%nat → Forall (λ cells, length cells = 8%nat) bonus →
  (i < 8)%nat → (j < 8)%nat → is_Some (table_at bonus i j).
Proof.
  intros Hl Hall Hi Hj. unfold table_at.
  destruct (lookup_lt_is_Some_2 bonus i) as [cells Hc]; [lia|].
  rewrite Hc. simpl. apply lookup_lt_is_Some_2.
  rewrite Forall_forall in Hall.
  rewrite (Hall cells); [lia|]. eapply list_elem_of_lookup_2, Hc.
Qed.

(** On the key of a piece symbol, [getPositionBonus] is the negated table
    entry of the same row and column. *)
Lemma getPositionBonus_symbol t row col :
  ∃ bonus, POSITION_BONUSES !! toUpperCase (symbol t) = Some bonus
    ∧ getPositionBonus (symbol t) row col = Z.opp <$> table_at bonus row col.
Proof.
  destruct (POSITION_BONUSES_symbol t) as (bonus & Hb & _ & _ & Hne).
  exists bonus. split; [done|]. unfold getPositionBonus. rewrite Hb.
  destruct (decide (symbol t = toUpperCase (symbol t))); [done|reflexivity].
Qed.

Lemma getPositionBonus_is_Some t row col :
  (row < 8)%nat → (col < 8)%nat → is_Some (getPositionBonus (symbol t) row col).
Proof.
  intros Hr Hc.
  destruct (getPositionBonus_symbol t row col) as (bonus & Hb & ->).
  destruct (POSITION_BONUSES_symbol t) as (bonus' & Hb' & Hl & Hall & _).
  assert (bonus' = bonus) as -> by congruence.
  destruct (table_at_is_Some bonus row col Hl Hall Hr Hc) as [z ->]. simpl. eauto.
Qed.

Lemma material_is_Some square : is_Some (material square).
Proof.
  unfold material. destruct (PIECE_VALUES_symbol (type square)) as [v ->].
  simpl. eauto.
Qed.

Lemma for_each_is_Some {A S : Type} (xs : list A) (body : A → S → option S) :
  (∀ x s, x ∈ xs → is_Some (body x s)) → ∀ s, is_Some (for_each xs body s).
Proof.
  induction xs as [|x xs IH]; intros Hbody s; simpl; [eauto|].
  destruct (Hbody x s) as [s' ->]; [left|]. simpl.
  apply IH. intros y t Hy. apply Hbody. by right.
Qed.

Lemma scan_square_is_Some (bd : Board) row col score :
  length bd = 8%nat → (row < 8)%nat → (col < 8)%nat →
  is_Some (scan_square bd row col score).
Proof.
  intros Hl Hr Hc. unfold scan_square.
  destruct (lookup_lt_is_Some_2 bd row) as [cells ->]; [lia|]. simpl.
  destruct (cells !! col) as [[square|]|]; eauto.
  destruct (material_is_Some square) as [m ->]. simpl.
  destruct (getPositionBonus_is_Some (type square) row col Hr Hc) as [x ->].
  simpl. eauto.
Qed.

Lemma scan_board_is_Some (bd : Board) score :
  length bd = 8%nat → is_Some (scan_board bd score).
Proof.
  intros Hl. unfold scan_board. apply for_each_is_Some.
  intros row s Hrow. apply for_each_is_Some. intros col s' Hcol.
  apply list_elem_of_In, in_seq in Hrow, Hcol.
  apply scan_square_is_Some; [done|lia|lia].
Qed.

(** ** The order of the numbers

    Any finite set of numbers embeds into the integers: with [B] beyond the
    absolute value of every finite number at hand, [key B] sends the two
    infinities to [- B] and [B] and preserves the order, the maximum and the
    minimum.  Goals about the comparisons of the code are decided through it
    by linear arithmetic. *)

Lemma key_lt B x y :
  bnd x < B → bnd y < B → num_lt x y = true ↔ key B x < key B y.
Proof.
  unfold bnd. destruct x, y; simpl; rewrite ?Z.ltb_lt; intros; split;
    (lia || done).
Qed.

Lemma key_nlt B x y :
  bnd x < B → bnd y < B → num_lt x y = false ↔ key B y ≤ key B x.
Proof.
  unfold bnd. destruct x, y; simpl; rewrite ?Z.ltb_ge; intros; split;
    (lia || done).
Qed.

Lemma key_gt B x y :
  bnd x < B → bnd y < B → num_gt x y = true ↔ key B y < key B x.
Proof. intros. unfold num_gt. by apply key_lt. Qed.

Lemma key_ngt B x y :
  bnd x < B → bnd y < B → num_gt x y = false ↔ key B x ≤ key B y.
Proof. intros. unfold num_gt. by apply key_nlt. Qed.

Lemma key_le B x y :
  bnd x < B → bnd y < B → num_le x y = true ↔ key B x ≤ key B y.
Proof. intros. unfold num_le. rewrite negb_true_iff. by apply key_nlt. Qed.

Lemma key_nle B x y :
  bnd x < B → bnd y < B → num_le x y = false ↔ key B y < key B x.
Proof. intros. unfold num_le. rewrite negb_false_iff. by apply key_lt. Qed.

Lemma key_eq B x y :
  bnd x < B → bnd y < B → x = y ↔ key B x = key B y.
Proof.
  unfold bnd. destruct x, y; simpl; intros; split; intros;
    first [done | lia | f_equal; lia | simplify_eq; lia].
Qed.

Lemma key_range B x : bnd x < B → - B ≤ key B x ≤ B.
Proof. unfold bnd. destruct x; simpl; lia. Qed.

Lemma key_max B x y :
  bnd x < B → bnd y < B → key B (Math_max x y) = Z.max (key B x) (key B y).
Proof.
  intros Hx Hy. unfold Math_max. destruct (num_lt x y) eqn:E.
  - apply (proj1 (key_lt B _ _ Hx Hy)) in E. lia.
  - apply (proj1 (key_nlt B _ _ Hx Hy)) in E. lia.
Qed.

Lemma key_min B x y :
  bnd x < B → bnd y < B → key B (Math_min x y) = Z.min (key B x) (key B y).
Proof.
  intros Hx Hy. unfold Math_min. destruct (num_lt y x) eqn:E.
  - apply (proj1 (key_lt B _ _ Hy Hx)) in E. lia.
  - apply (proj1 (key_nlt B _ _ Hy Hx)) in E. lia.
Qed.

Lemma bnd_max B x y : bnd x < B → bnd y < B → bnd (Math_max x y) < B.
Proof. unfold Math_max. by destruct (num_lt x y). Qed.

Lemma bnd_min B x y : bnd x < B → bnd y < B → bnd (Math_min x y) < B.
Proof. unfold Math_min. by destruct (num_lt y x). Qed.

Lemma bnd_infinite B : 1 < B → bnd NegInfinity < B ∧ bnd Infinity < B.
Proof. unfold bnd. simpl. lia. Qed.

(** The bound: one more than the [bnd] of every number of the context. *)
Ltac num_collect acc :=
  match goal with
  | x : number |- _ =>
      lazymatch acc with
      | context [bnd x] => fail
      | _ => num_collect (Z.max (bnd x) acc)
      end
  | _ => acc
  end.

Ltac num_side :=
  lazymatch goal with
  | |- bnd (Math_max _ _) < _ => apply bnd_max; num_side
  | |- bnd (Math_min _ _) < _ => apply bnd_min; num_side
  | _ => assumption
  end.

Ltac num_clear :=
  repeat match goal with
  | H : ∀ x : ?A, _ |- _ =>
      lazymatch type of A with
      | Prop => fail
      | _ => clear H
      end
  end.

Ltac num_key B lem x y := constr:(lem B x y ltac:(num_side) ltac:(num_side)).

Ltac num_lia :=
  num_clear;
  repeat match goal with r : Result |- _ => destruct r end;
  cbn [score] in *;
  unfold bounds_value in *;
  let b := num_collect 1 in
  let B := fresh "B" in
  pose (B := b + 1);
  repeat match goal with
  | x : number |- _ =>
      lazymatch goal with
      | _ : bnd x < B |- _ => fail
      | _ => assert (bnd x < B) by (unfold B; lia);
             pose proof (key_range B x ltac:(assumption))
      end
  end;
  destruct (bnd_infinite B ltac:(unfold B; lia));
  clearbody B;
  repeat match goal with
  | H : context [num_le ?x ?y = true] |- _ =>
      let l := num_key B key_le x y in rewrite l in H
  | H : context [num_le ?x ?y = false] |- _ =>
      let l := num_key B key_nle x y in rewrite l in H
  | H : context [num_gt ?x ?y = true] |- _ =>
      let l := num_key B key_gt x y in rewrite l in H
  | H : context [num_gt ?x ?y = false] |- _ =>
      let l := num_key B key_ngt x y in rewrite l in H
  | H : context [num_lt ?x ?y = true] |- _ =>
      let l := num_key B key_lt x y in rewrite l in H
  | H : context [num_lt ?x ?y = false] |- _ =>
      let l := num_key B key_nlt x y in rewrite l in H
  | H : context [@eq number ?x ?y] |- _ =>
      let l := num_key B key_eq x y in rewrite l in H
  | |- context [num_le ?x ?y = true] =>
      let l := num_key B key_le x y in rewrite l
  | |- context [num_le ?x ?y = false] =>
      let l := num_key B key_nle x y in rewrite l
  | |- context [num_gt ?x ?y = true] =>
      let l := num_key B key_gt x y in rewrite l
  | |- context [num_gt ?x ?y = false] =>
      let l := num_key B key_ngt x y in rewrite l
  | |- context [num_lt ?x ?y = true] =>
      let l := num_key B key_lt x y in rewrite l
  | |- context [num_lt ?x ?y = false] =>
      let l := num_key B key_nlt x y in rewrite l
  | |- context [@eq number ?x ?y] =>
      let l := num_key B key_eq x y in rewrite l
  end;
  repeat match goal with
  | H : context [key B (Math_max ?x ?y)] |- _ =>
      let l := num_key B key_max x y in rewrite l in H
  | H : context [key B (Math_min ?x ?y)] |- _ =>
      let l := num_key B key_min x y in rewrite l in H
  | |- context [key B (Math_max ?x ?y)] =>
      let l := num_key B key_max x y in rewrite l
  | |- context [key B (Math_min ?x ?y)] =>
      let l := num_key B key_min x y in rewrite l
  end;
  cbn [key] in *; lia.

(** ** The evaluator and the searcher over a lawful rules library *)
Section Lawful.
Context `{RulesOracleLaws}.

Lemma evaluateBoard_is_Some game : is_Some (evaluateBoard game).
Proof.
  unfold evaluateBoard.
  destruct (isCheckmate game); [eauto|].
  destruct (isDraw game || isStalemate game || isThreefoldRepetition game
            || isInsufficientMaterial game); [eauto|].
  destruct (scan_board_is_Some (board game) 0 (board_rows game)) as [s ->].
  simpl. eauto.
Qed.

(** The loops return the instance to the state they found it in, provided
    each recursive call does. *)
Lemma for_max_restores search ms game :
  (∀ m g, move game m = Some g → ∀ a b', ∃ r, search g a b' = Some (r, g)) →
  (∀ m, m ∈ ms → is_Some (move game m)) →
  ∀ alpha beta maxScore bestMove, ∃ s bm,
    for_max search ms game alpha beta maxScore bestMove = Some (s, bm, game).
Proof.
  intros Hsearch. induction ms as [|m ms IH]; intros Hlegal alpha beta s0 bm0.
  { simpl. eauto. }
  destruct (Hlegal m) as [g Hg]; [left|].
  destruct (Hsearch m g Hg alpha beta) as [r Hr].
  simpl. rewrite Hg. simpl. rewrite Hr. simpl.
  rewrite (undo_move _ _ _ Hg).
  destruct (num_gt (score r) s0);
    (destruct (num_le beta _); [eauto|]; apply IH; intros; apply Hlegal; by right).
Qed.

Lemma for_min_restores search ms game :
  (∀ m g, move game m = Some g → ∀ a b', ∃ r, search g a b' = Some (r, g)) →
  (∀ m, m ∈ ms → is_Some (move game m)) →
  ∀ alpha beta minScore bestMove, ∃ s bm,
    for_min search ms game alpha beta minScore bestMove = Some (s, bm, game).
Proof.
  intros Hsearch. induction ms as [|m ms IH]; intros Hlegal alpha beta s0 bm0.
  { simpl. eauto. }
  destruct (Hlegal m) as [g Hg]; [left|].
  destruct (Hsearch m g Hg alpha beta) as [r Hr].
  simpl. rewrite Hg. simpl. rewrite Hr. simpl.
  rewrite (undo_move _ _ _ Hg).
  destruct (num_lt (score r) s0);
    (destruct (num_le _ alpha); [eauto|]; apply IH; intros; apply Hlegal; by right).
Qed.

(** The search returns, with the instance in the state it was given. *)
Lemma minimax_runs game depth alpha beta isMaximizingPlayer :
  ∃ r, minimax game depth alpha beta isMaximizingPlayer = Some (r, game).
Proof.
  revert game alpha beta isMaximizingPlayer.
  induction depth as [|depth IH]; intros game alpha beta isMax; simpl.
  - destruct (evaluateBoard_is_Some game) as [s ->]. simpl. eauto.
  - destruct (isGameOver game).
    { destruct (evaluateBoard_is_Some game) as [s ->]. simpl. eauto. }
    destruct isMax.
    + destruct (for_max_restores (λ g a b', minimax g depth a b' false)
                  (moves game) game) with (alpha := alpha) (beta := beta)
        (maxScore := NegInfinity) (bestMove := @None Move) as (s & bm & ->);
        [intros; apply IH | intros; by apply move_legal |].
      simpl. eauto.
    + destruct (for_min_restores (λ g a b', minimax g depth a b' true)
                  (moves game) game) with (alpha := alpha) (beta := beta)
        (minScore := Infinity) (bestMove := @None Move) as (s & bm & ->);
        [intros; apply IH | intros; by apply move_legal |].
      simpl. eauto.
Qed.

(** C1. For every position, every depth and every pair of bounds, [minimax]
    returns, and the instance it was given is then in exactly the state it
    had before the call, so that every query on it (board, side to move,
    legal moves, status) answers as before; this covers the calls whose
    loop ends early at the pruning test. *)
Theorem minimax_restores_position game depth alpha beta isMaximizingPlayer :
  ∃ r g, minimax game depth alpha beta isMaximizingPlayer = Some (r, g)
    ∧ g = game ∧ board g = board game ∧ turn g = turn game
    ∧ fen g = fen game ∧ moves g = moves game.
Proof.
  destruct (minimax_runs game depth alpha beta isMaximizingPlayer) as [r Hr].
  by exists r, game.
Qed.


(** *** The search returns a finite score and a listed move *)

Lemma for_max_picks (P : Move → Prop) search ms game alpha beta s0 bm0 s bm g :
  for_max search ms game alpha beta s0 bm0 = Some (s, bm, g) →
  (∀ g1 a b' r g2, search g1 a b' = Some (r, g2) → ∃ z, score r = Num z) →
  (∀ m, m ∈ ms → P m) →
  (s0 = NegInfinity ∧ ms ≠ []) ∨ ((∃ z, s0 = Num z) ∧ ∃ m, bm0 = Some m ∧ P m) →
  (∃ z, s = Num z) ∧ ∃ m, bm = Some m ∧ P m.
Proof.
  intros Hrun Hfin. revert game alpha s0 bm0 Hrun.
  induction ms as [|m ms IH]; intros game alpha s0 bm0 Hrun HP Hst; simpl in Hrun.
  { destruct Hst as [[_ ?]|Hst]; [done|]. by simplify_eq. }
  destruct (move game m) as [g1|]; simpl in Hrun; [|done].
  destruct (search g1 alpha beta) as [[r g2]|] eqn:Hr; simpl in Hrun; [|done].
  destruct (Hfin _ _ _ _ _ Hr) as [z Hz]. rewrite Hz in Hrun.
  assert (Hm : P m) by (apply HP; left).
  assert (Hrest : ∀ m', m' ∈ ms → P m') by (intros; apply HP; by right).
  destruct (num_gt (Num z) s0) eqn:Egt.
  - destruct (num_le beta _); [simplify_eq; eauto|].
    eapply IH; [exact Hrun|done|right; eauto].
  - assert (∃ z0, s0 = Num z0) as [z0 ->].
    { destruct Hst as [[-> _]|[? _]]; [done|done]. }
    assert (∃ m0, bm0 = Some m0 ∧ P m0) as Hbm.
    { destruct Hst as [[? _]|[_ ?]]; [done|done]. }
    destruct (num_le beta _); [simplify_eq; eauto|].
    eapply IH; [exact Hrun|done|right; eauto].
Qed.

Lemma for_min_picks (P : Move → Prop) search ms game alpha beta s0 bm0 s bm g :
  for_min search ms game alpha beta s0 bm0 = Some (s, bm, g) →
  (∀ g1 a b' r g2, search g1 a b' = Some (r, g2) → ∃ z, score r = Num z) →
  (∀ m, m ∈ ms → P m) →
  (s0 = Infinity ∧ ms ≠ []) ∨ ((∃ z, s0 = Num z) ∧ ∃ m, bm0 = Some m ∧ P m) →
  (∃ z, s = Num z) ∧ ∃ m, bm = Some m ∧ P m.
Proof.
  intros Hrun Hfin. revert game beta s0 bm0 Hrun.
  induction ms as [|m ms IH]; intros game beta s0 bm0 Hrun HP Hst; simpl in Hrun.
  { destruct Hst as [[_ ?]|Hst]; [done|]. by simplify_eq. }
  destruct (move game m) as [g1|]; simpl in Hrun; [|done].
  destruct (search g1 alpha beta) as [[r g2]|] eqn:Hr; simpl in Hrun; [|done].
  destruct (Hfin _ _ _ _ _ Hr) as [z Hz]. rewrite Hz in Hrun.
  assert (Hm : P m) by (apply HP; left).
  assert (Hrest : ∀ m', m' ∈ ms → P m') by (intros; apply HP; by right).
  destruct (num_lt (Num z) s0) eqn:Elt.
  - destruct (num_le _ alpha); [simplify_eq; eauto|].
    eapply IH; [exact Hrun|done|right; eauto].
  - assert (∃ z0, s0 = Num z0) as [z0 ->].
    { destruct Hst as [[-> _]|[? _]]; [done|done]. }
    assert (∃ m0, bm0 = Some m0 ∧ P m0) as Hbm.
    { destruct Hst as [[? _]|[_ ?]]; [done|done]. }
    destruct (num_le _ alpha); [simplify_eq; eauto|].
    eapply IH; [exact Hrun|done|right; eauto].
Qed.

Lemma minimax_picks game depth alpha beta isMaximizingPlayer r g :
  minimax game depth alpha beta isMaximizingPlayer = Some (r, g) →
  (∃ z, score r = Num z)
  ∧ (depth ≠ 0%nat → isGameOver game = false →
     ∃ m, m ∈ moves game ∧ r_move r = Some (san m)).
Proof.
  revert game alpha beta isMaximizingPlayer r g.
  induction depth as [|depth IH]; intros game alpha beta isMax r g Hrun;
    simpl in Hrun.
  { destruct (evaluateBoard game); simpl in Hrun; [|done].
    simplify_eq. simpl. split; [eauto|done]. }
  destruct (isGameOver game) eqn:Hover.
  { destruct (evaluateBoard game); simpl in Hrun; [|done].
    simplify_eq. simpl. split; [eauto|done]. }
  pose proof (moves_nonempty game Hover) as Hne.
  destruct isMax.
  - destruct (for_max _ _ _ _ _ _ _) as [[[s bm] g']|] eqn:Hloop;
      simpl in Hrun; [|done]. simplify_eq. simpl.
    eapply (for_max_picks (λ m, m ∈ moves game)) in Hloop as [Hs (m & -> & Hm)];
      [|intros ????? Hr; by apply IH in Hr as [? _]|done|by left].
    split; [done|]. intros _ _. by exists m.
  - destruct (for_min _ _ _ _ _ _ _) as [[[s bm] g']|] eqn:Hloop;
      simpl in Hrun; [|done]. simplify_eq. simpl.
    eapply (for_min_picks (λ m, m ∈ moves game)) in Hloop as [Hs (m & -> & Hm)];
      [|intros ????? Hr; by apply IH in Hr as [? _]|done|by left].
    split; [done|]. intros _ _. by exists m.
Qed.

(** C8. At every depth of at least 1, whatever the bounds and the role,
    [minimax] on a position whose game is not over returns a move, and the
    move is the notation of one of the position's legal moves. *)
Theorem minimax_returns_legal_move game depth alpha beta isMaximizingPlayer :
  isGameOver game = false → (1 ≤ depth)%nat →
  ∃ r m, minimax game depth alpha beta isMaximizingPlayer = Some (r, game)
    ∧ m ∈ moves game ∧ r_move r = Some (san m).
Proof.
  intros Hover Hdepth.
  destruct (minimax_runs game depth alpha beta isMaximizingPlayer) as [r Hr].
  destruct (minimax_picks _ _ _ _ _ _ _ Hr) as [_ Hm].
  destruct Hm as (m & Hin & Hsan); [lia|done|]. by exists r, m.
Qed.

(** *** Pruning does not change the result *)

(** The exhaustive loops return, and never fall behind their running best. *)
Lemma best_max_above value game ms :
  (∀ m, m ∈ ms → ∃ g v, move game m = Some g ∧ value g = Some v) →
  ∀ s0 bm0, ∃ s bm,
    best_max value game ms s0 bm0 = Some (s, bm) ∧ num_le s0 s = true.
Proof.
  induction ms as [|m ms IH]; intros Hall s0 bm0; simpl.
  { exists s0, bm0. split; [done|num_lia]. }
  destruct (Hall m) as (g & v & -> & Hv); [left|]. simpl. rewrite Hv. simpl.
  assert (Hrest : ∀ m', m' ∈ ms → ∃ g v, move game m' = Some g ∧ value g = Some v)
    by (intros; apply Hall; by right).
  destruct (num_gt (score v) s0) eqn:Egt.
  - destruct (IH Hrest (score v) (Some m)) as (s & bm & -> & Hle).
    exists s, bm. split; [done|num_lia].
  - destruct (IH Hrest s0 bm0) as (s & bm & -> & Hle). by exists s, bm.
Qed.

Lemma best_min_below value game ms :
  (∀ m, m ∈ ms → ∃ g v, move game m = Some g ∧ value g = Some v) →
  ∀ s0 bm0, ∃ s bm,
    best_min value game ms s0 bm0 = Some (s, bm) ∧ num_le s s0 = true.
Proof.
  induction ms as [|m ms IH]; intros Hall s0 bm0; simpl.
  { exists s0, bm0. split; [done|num_lia]. }
  destruct (Hall m) as (g & v & -> & Hv); [left|]. simpl. rewrite Hv. simpl.
  assert (Hrest : ∀ m', m' ∈ ms → ∃ g v, move game m' = Some g ∧ value g = Some v)
    by (intros; apply Hall; by right).
  destruct (num_lt (score v) s0) eqn:Elt.
  - destruct (IH Hrest (score v) (Some m)) as (s & bm & -> & Hle).
    exists s, bm. split; [done|num_lia].
  - destruct (IH Hrest s0 bm0) as (s & bm & -> & Hle). by exists s, bm.
Qed.

(** The maximizing loop against the exhaustive one.  [alpha0] is the bound
    the node was entered with; the loop runs from the state
    [(alpha, maxScore, bestMove)] and the exhaustive loop from [(sx, bx)].
    While [maxScore] has not passed [alpha0] the exhaustive best is at most
    [maxScore]; once it has, the two loops agree on score and move. *)
Lemma for_max_sound search value ms game alpha0 beta :
  (∀ m g, move game m = Some g → ∀ a, num_lt a beta = true →
     ∃ r v, search g a beta = Some (r, g) ∧ value g = Some v
       ∧ bounds_value (score r) (score v) a beta) →
  (∀ m, m ∈ ms → is_Some (move game m)) →
  ∀ alpha maxScore bestMove sx bx,
    alpha = Math_max alpha0 maxScore → num_lt alpha beta = true →
    (num_le maxScore alpha0 = true → num_le sx maxScore = true) →
    (num_lt alpha0 maxScore = true → sx = maxScore ∧ bx = bestMove) →
    ∃ s bm s' bm',
      for_max search ms game alpha beta maxScore bestMove = Some (s, bm, game)
      ∧ best_max value game ms sx bx = Some (s', bm')
      ∧ bounds_value s s' alpha0 beta
      ∧ (num_lt alpha0 s = true → num_lt s beta = true → bm' = bm).
Proof.
  intros Hsearch. induction ms as [|m ms IH];
    intros Hlegal alpha s0 bm0 sx bx Halpha Hlt Hlow Hhigh.
  { simpl. exists s0, bm0, sx, bx. do 2 (split; [done|]). split.
    - destruct (num_lt alpha0 s0) eqn:E.
      + destruct Hhigh as [-> _]; [done|]. num_lia.
      + assert (num_le sx s0 = true) by (apply Hlow; num_lia). num_lia.
    - intros Ha _. by destruct Hhigh as [_ ->]. }
  destruct (Hlegal m) as [g Hg]; [left|].
  destruct (Hsearch m g Hg alpha Hlt) as (r & v & Hr & Hv & Hb).
  assert (Hrest : ∀ m', m' ∈ ms → is_Some (move game m'))
    by (intros; apply Hlegal; by right).
  assert (Hvalues : ∀ m', m' ∈ ms → ∃ g v, move game m' = Some g ∧ value g = Some v).
  { intros m' Hm'. destruct (Hrest m' Hm') as [g' Hg'].
    destruct (Hsearch m' g' Hg' alpha Hlt) as (_ & v' & _ & Hv' & _). eauto. }
  simpl. rewrite Hg. simpl. rewrite Hr, Hv. simpl. rewrite (undo_move _ _ _ Hg).
  assert (Hinv : (num_lt alpha0 s0 = true ∧ sx = s0 ∧ bx = bm0)
                 ∨ (num_lt alpha0 s0 = false ∧ num_le sx s0 = true)).
  { destruct (num_lt alpha0 s0) eqn:E; [left; by destruct Hhigh|].
    right. split; [done|]. apply Hlow. num_lia. }
  clear Hlow Hhigh.
  destruct r as [sr mr], v as [sv mvv]; simpl in *.
  clear Hsearch Hlegal Hr Hv Hg.
  destruct Hinv as [(E & -> & ->)|(E & Hsx)];
    destruct (num_gt sr s0) eqn:Egt;
    destruct (num_gt sv _) eqn:Egx;
    destruct (num_le beta _) eqn:Ecut;
    try (exfalso; clear IH; num_lia);
    first
      [ apply IH;
        [ done | num_lia | num_lia | intros; num_lia
        | intros; split; [num_lia | first [reflexivity | exfalso; num_lia]] ]
      | match goal with
        | |- context [best_max value game ms ?a ?c] =>
            destruct (best_max_above value game ms Hvalues a c)
              as (s' & bm' & -> & Hs')
        end;
        do 4 eexists; do 2 (split; [reflexivity|]);
        split; [num_lia | intros; exfalso; num_lia] ].
Qed.

(** The minimizing loop against the exhaustive one, the mirror image of
    [for_max_sound]: [beta0] is the bound the node was entered with. *)
Lemma for_min_sound search value ms game alpha beta0 :
  (∀ m g, move game m = Some g → ∀ b', num_lt alpha b' = true →
     ∃ r v, search g alpha b' = Some (r, g) ∧ value g = Some v
       ∧ bounds_value (score r) (score v) alpha b') →
  (∀ m, m ∈ ms → is_Some (move game m)) →
  ∀ beta minScore bestMove sx bx,
    beta = Math_min beta0 minScore → num_lt alpha beta = true →
    (num_le beta0 minScore = true → num_le minScore sx = true) →
    (num_lt minScore beta0 = true → sx = minScore ∧ bx = bestMove) →
    ∃ s bm s' bm',
      for_min search ms game alpha beta minScore bestMove = Some (s, bm, game)
      ∧ best_min value game ms sx bx = Some (s', bm')
      ∧ bounds_value s s' alpha beta0
      ∧ (num_lt alpha s = true → num_lt s beta0 = true → bm' = bm).
Proof.
  intros Hsearch. induction ms as [|m ms IH];
    intros Hlegal beta s0 bm0 sx bx Hbeta Hlt Hlow Hhigh.
  { simpl. exists s0, bm0, sx, bx. do 2 (split; [done|]). split.
    - destruct (num_lt s0 beta0) eqn:E.
      + destruct Hhigh as [-> _]; [done|]. num_lia.
      + assert (num_le s0 sx = true) by (apply Hlow; num_lia). num_lia.
    - intros _ Hb. by destruct Hhigh as [_ ->]. }
  destruct (Hlegal m) as [g Hg]; [left|].
  destruct (Hsearch m g Hg beta Hlt) as (r & v & Hr & Hv & Hb).
  assert (Hrest : ∀ m', m' ∈ ms → is_Some (move game m'))
    by (intros; apply Hlegal; by right).
  assert (Hvalues : ∀ m', m' ∈ ms → ∃ g v, move game m' = Some g ∧ value g = Some v).
  { intros m' Hm'. destruct (Hrest m' Hm') as [g' Hg'].
    destruct (Hsearch m' g' Hg' beta Hlt) as (_ & v' & _ & Hv' & _). eauto. }
  simpl. rewrite Hg. simpl. rewrite Hr, Hv. simpl. rewrite (undo_move _ _ _ Hg).
  assert (Hinv : (num_lt s0 beta0 = true ∧ sx = s0 ∧ bx = bm0)
                 ∨ (num_lt s0 beta0 = false ∧ num_le s0 sx = true)).
  { destruct (num_lt s0 beta0) eqn:E; [left; by destruct Hhigh|].
    right. split; [done|]. apply Hlow. num_lia. }
  clear Hlow Hhigh.
  destruct r as [sr mr], v as [sv mvv]; simpl in *.
  clear Hsearch Hlegal Hr Hv Hg.
  destruct Hinv as [(E & -> & ->)|(E & Hsx)];
    destruct (num_lt sr s0) eqn:Elt;
    destruct (num_lt sv _) eqn:Elx;
    destruct (num_le _ alpha) eqn:Ecut;
    try (exfalso; clear IH; num_lia);
    first
      [ apply IH;
        [ done | num_lia | num_lia | intros; num_lia
        | intros; split; [num_lia | first [reflexivity | exfalso; num_lia]] ]
      | match goal with
        | |- context [best_min value game ms ?a ?c] =>
            destruct (best_min_below value game ms Hvalues a c)
              as (s' & bm' & -> & Hs')
        end;
        do 4 eexists; do 2 (split; [reflexivity|]);
        split; [num_lia | intros; exfalso; num_lia] ].
Qed.

Lemma bounds_value_refl r alpha beta : bounds_value r r alpha beta.
Proof. repeat split; intros; num_lia. Qed.

(** Inside bounds [alpha < beta], the score [minimax] returns bounds the
    exhaustive score as [bounds_value] says, and when it lies strictly
    between the bounds the move is the exhaustive one as well. *)
Lemma minimax_sound depth :
  ∀ game alpha beta isMaximizingPlayer, num_lt alpha beta = true →
  ∃ r v, minimax game depth alpha beta isMaximizingPlayer = Some (r, game)
    ∧ minimax_exhaustive game depth isMaximizingPlayer = Some v
    ∧ bounds_value (score r) (score v) alpha beta
    ∧ (num_lt alpha (score r) = true → num_lt (score r) beta = true →
       r_move v = r_move r).
Proof.
  induction depth as [|depth IH]; intros game alpha beta isMax Hlt; simpl.
  { destruct (evaluateBoard_is_Some game) as [s ->]. simpl.
    do 2 eexists. do 2 (split; [reflexivity|]). simpl. split; [|done].
    apply bounds_value_refl. }
  destruct (isGameOver game).
  { destruct (evaluateBoard_is_Some game) as [s ->]. simpl.
    do 2 eexists. do 2 (split; [reflexivity|]). simpl. split; [|done].
    apply bounds_value_refl. }
  destruct isMax.
  - destruct (for_max_sound (λ g a b', minimax g depth a b' false)
                (λ g, minimax_exhaustive g depth false)
                (moves game) game alpha beta)
      with (alpha := alpha) (maxScore := NegInfinity) (bestMove := @None Move)
           (sx := NegInfinity) (bx := @None Move)
      as (s & bm & s' & bm' & -> & -> & Hb & Hmove).
    + intros m g Hg a Ha.
      destruct (IH g a beta false Ha) as (r & v & ? & ? & ? & _). by exists r, v.
    + intros. by apply move_legal.
    + num_lia.
    + done.
    + done.
    + intros; exfalso; num_lia.
    + simpl. do 2 eexists. do 2 (split; [reflexivity|]). simpl.
      split; [done|]. intros Ha Hb'. by rewrite Hmove.
  - destruct (for_min_sound (λ g a b', minimax g depth a b' true)
                (λ g, minimax_exhaustive g depth true)
                (moves game) game alpha beta)
      with (beta := beta) (minScore := Infinity) (bestMove := @None Move)
           (sx := Infinity) (bx := @None Move)
      as (s & bm & s' & bm' & -> & -> & Hb & Hmove).
    + intros m g Hg b' Hb'.
      destruct (IH g alpha b' true Hb') as (r & v & ? & ? & ? & _). by exists r, v.
    + intros. by apply move_legal.
    + num_lia.
    + done.
    + done.
    + intros; exfalso; num_lia.
    + simpl. do 2 eexists. do 2 (split; [reflexivity|]). simpl.
      split; [done|]. intros Ha Hb'. by rewrite Hmove.
Qed.

(** C5. For every position, depth and role at the root, [minimax] started
    with the bounds -Infinity and +Infinity returns the score and the move
    that exhaustive minimax without pruning returns over the same move
    order. *)
Theorem pruning_equivalence game depth isMaximizingPlayer :
  ∃ r, minimax game depth NegInfinity Infinity isMaximizingPlayer = Some (r, game)
    ∧ minimax_exhaustive game depth isMaximizingPlayer = Some r.
Proof.
  destruct (minimax_sound depth game NegInfinity Infinity isMaximizingPlayer)
    as (r & v & Hr & Hv & Hb & Hmove); [done|].
  exists r. split; [done|]. rewrite Hv. f_equal.
  destruct (minimax_picks _ _ _ _ _ _ _ Hr) as [[z Hz] _].
  destruct r as [sr mr], v as [sv mvv]; simpl in *. subst sr.
  destruct Hb as (_ & Hin & _).
  rewrite Hin, Hmove by done. done.
Qed.

(** *** findBestMove *)

(** What a call of [findBestMove] does: it loads a copy of the caller's
    game under a fresh identity, searches on the copy with the root flag
    [turn = computerColor], and leaves the copy, restored, in the store. *)
Lemma findBestMove_runs σ game depth computerColor g :
  σ !! game = Some g →
  ∃ copy r,
    new_Chess (fen g) = Some copy
    ∧ minimax copy depth NegInfinity Infinity
        (bool_decide (turn copy = computerColor)) = Some (r, copy)
    ∧ findBestMove game depth computerColor σ
      = Some (or_null (r_move r), <[fresh (dom σ) := copy]> σ).
Proof.
  intros Hg. destruct (new_Chess_fen g) as [copy Hcopy].
  destruct (minimax_runs copy depth NegInfinity Infinity
              (bool_decide (turn copy = computerColor))) as [r Hr].
  exists copy, r. do 2 (split; [done|]).
  unfold findBestMove, on_instance. rewrite Hg. simpl. rewrite Hcopy. simpl.
  rewrite lookup_insert_eq. simpl. rewrite Hr. simpl.
  by rewrite insert_insert_eq.
Qed.

(** The root of the search is maximizing exactly when the side to move of
    the copy is [computerColor], whichever colour that is. *)
Lemma findBestMove_root σ game depth computerColor g :
  σ !! game = Some g →
  ∃ copy r σ',
    new_Chess (fen g) = Some copy
    ∧ findBestMove game depth computerColor σ = Some (or_null (r_move r), σ')
    ∧ (turn copy = computerColor →
       minimax copy depth NegInfinity Infinity true = Some (r, copy))
    ∧ (turn copy ≠ computerColor →
       minimax copy depth NegInfinity Infinity false = Some (r, copy)).
Proof.
  intros Hg.
  destruct (findBestMove_runs σ game depth computerColor g Hg)
    as (copy & r & Hcopy & Hr & Hrun).
  exists copy, r, (<[fresh (dom σ) := copy]> σ). do 2 (split; [done|]).
  split; intros Hturn.
  - by rewrite bool_decide_eq_true_2 in Hr.
  - by rewrite bool_decide_eq_false_2 in Hr.
Qed.

(** C9. At depth 0 [minimax] returns exactly the score of [evaluateBoard]
    on the position and no move, and [findBestMove] returns [null]. *)
Theorem depth_zero_is_static_evaluation :
  (∀ game alpha beta isMaximizingPlayer, ∃ s,
     evaluateBoard game = Some s
     ∧ minimax game 0 alpha beta isMaximizingPlayer
       = Some (mkResult (Num s) None, game))
  ∧ (∀ σ game computerColor g, σ !! game = Some g →
     ∃ σ', findBestMove game 0 computerColor σ = Some (None, σ')).
Proof.
  split.
  - intros game alpha beta isMax.
    destruct (evaluateBoard_is_Some game) as [s Hs]. exists s.
    split; [done|]. simpl. by rewrite Hs.
  - intros σ game c g Hg.
    destruct (findBestMove_runs σ game 0 c g Hg) as (copy & r & _ & Hr & ->).
    simpl in Hr. destruct (evaluateBoard copy); simpl in Hr; [|done].
    simplify_eq. simpl. eauto.
Qed.

(** C10. [findBestMove] does not change the game it is given: it returns
    with the store extended by one instance of a fresh identity, the copy
    loaded from the game's FEN, and the caller's instance, like every
    instance that existed, in the state it had. *)
Theorem findBestMove_leaves_game_unchanged σ game depth computerColor g :
  σ !! game = Some g →
  ∃ mv copy σ',
    findBestMove game depth computerColor σ = Some (mv, σ')
    ∧ new_Chess (fen g) = Some copy
    ∧ σ' = <[fresh (dom σ) := copy]> σ
    ∧ σ' !! game = Some g
    ∧ (∀ l, l ∈ dom σ → σ' !! l = σ !! l).
Proof.
  intros Hg.
  destruct (findBestMove_runs σ game depth computerColor g Hg)
    as (copy & r & Hcopy & _ & Hrun).
  exists (or_null (r_move r)), copy, (<[fresh (dom σ) := copy]> σ).
  do 3 (split; [done|]).
  assert (Hother : ∀ l, l ∈ dom σ →
            <[fresh (dom σ) := copy]> σ !! l = σ !! l).
  { intros l Hl. apply lookup_insert_ne. intros <-.
    by apply (is_fresh (dom σ)). }
  split; [|done]. rewrite Hother; [done|]. apply elem_of_dom. eauto.
Qed.

End Lawful.

(** ** The scripted rules library is lawful *)

Lemma reply_is_Some rs m : m ∈ rs.*1 → is_Some (Script.reply rs m).
Proof.
  induction rs as [|[m' p] rs IH]; simpl; [by intros ?%elem_of_nil|].
  intros Hm. destruct (decide (m = m')); [eauto|].
  apply IH. apply elem_of_cons in Hm as [?|?]; done.
Qed.

#[global] Instance Script_laws : @RulesOracleLaws Script.oracle.
Proof.
  split.
  - intros g m Hm. simpl in *.
    destruct (reply_is_Some _ _ Hm) as [p ->]. simpl. eauto.
  - intros [p h] m g'. simpl.
    destruct (Script.reply _ _); simpl; [|done]. by intros [= <-].
  - done.
  - intros g. simpl. unfold Script.checkmate, Script.stalemate, Script.draw,
      Script.stalemate, Script.noMoves.
    destruct (Script.replies (Script.current g)); [|done].
    by destruct (Script.inCheck _).
  - simpl. eauto.
Qed.

(** ** The evaluator on finished games *)

(** C6, as the code has it.  A checkmate scores -100000 with White to move
    and +100000 with Black to move; a position that is not a checkmate and
    is a draw, a stalemate, a threefold repetition or of insufficient
    material scores 0.  Neither case reads the board. *)
Theorem evaluateBoard_terminal `{RulesOracle} game :
  (isCheckmate game = true →
   evaluateBoard game = Some (if decide (turn game = w) then -100000 else 100000))
  ∧ (isCheckmate game = false →
     isDraw game = true ∨ isStalemate game = true
     ∨ isThreefoldRepetition game = true ∨ isInsufficientMaterial game = true →
     evaluateBoard game = Some 0).
Proof.
  unfold evaluateBoard. split.
  - by intros ->.
  - intros -> Hdraw.
    assert (isDraw game || isStalemate game || isThreefoldRepetition game
            || isInsufficientMaterial game = true) as ->; [|done].
    destruct Hdraw as [-> | [-> | [-> | ->]]]; simpl;
      rewrite ?orb_true_r; done.
Qed.

Lemma evaluateBoard_terminal_witness :
  evaluateBoard (Script.loaded Script.mated) = Some 100000
  ∧ evaluateBoard (Script.loaded Script.stalemated) = Some 0.
Proof.
  split.
  - exact (proj1 (evaluateBoard_terminal (H := Script.oracle) (Script.loaded Script.mated)) eq_refl).
  - exact (proj2 (evaluateBoard_terminal (H := Script.oracle) (Script.loaded Script.stalemated))
             eq_refl (or_intror (or_introl eq_refl))).
Defined.

(** C6 as the specification words it ("a draw evaluates to exactly 0") is
    contradicted where a checkmate is also a draw for the library: with
    Black mated on the move that brings the fifty-move counter to 100
    ([7k/5KQ1/8/8/8/8/8/8 b - - 100 60]) the position is a draw for [isDraw]
    and [evaluateBoard] returns +100000, not 0. *)
Lemma mate_on_expired_counter_is_not_scored_zero :
  isCheckmate (Script.loaded Script.mated_fifty) = true
  ∧ isDraw (Script.loaded Script.mated_fifty) = true
  ∧ evaluateBoard (Script.loaded Script.mated_fifty) = Some 100000
  ∧ evaluateBoard (Script.loaded Script.mated_fifty) ≠ Some 0.
Proof. repeat split; try (vm_compute; reflexivity). vm_compute. discriminate. Qed.

(** ** The material and the positional term, evaluated *)

(** C2.  The material term of a White piece is the negative of its value and
    that of a Black piece the positive: [square.type] is the lower-case
    letter, so [PIECE_VALUES] answers with the negative entry, which the
    colour factor leaves negative for White and turns positive for Black. *)
Theorem material_has_the_opposite_sign :
  (λ t, material (mkPiece t w)) <$> [PAWN; KNIGHT; BISHOP; ROOK; QUEEN; KING]
    = Some <$> [-100; -320; -330; -500; -900; -20000]
  ∧ (λ t, material (mkPiece t b)) <$> [PAWN; KNIGHT; BISHOP; ROOK; QUEEN; KING]
    = Some <$> [100; 320; 330; 500; 900; 20000].
Proof. split; vm_compute; reflexivity. Qed.

(** Exchanging the colour of a piece negates its material term: the
    material term of a position and of its colour-flipped image are
    opposite whatever the table holds. *)
Lemma material_antisymmetric t :
  material (mkPiece t b) = Z.opp <$> material (mkPiece t w).
Proof. destruct t; vm_compute; reflexivity. Qed.

(** C3.  For every piece, White or Black, the positional term is the negated
    table entry of the board's own row and column: the letter passed to
    [getPositionBonus] is never upper case, so the branch for White is not
    taken.  A White pawn on e4 (row 4, column 4) adds -100 - 20 and a Black
    pawn there adds 100 - 20. *)
Theorem positional_term_ignores_the_colour :
  (∀ t row col,
     getPositionBonus (symbol t) row col
     = bonus ← POSITION_BONUSES !! toUpperCase (symbol t);
       Z.opp <$> table_at bonus row col)
  ∧ getPositionBonus (symbol PAWN) 4 4 = Some (-20)
  ∧ scan_square (Script.fen_board "8/8/8/8/4P3/8/8/8") 4 4 0 = Some (-120)
  ∧ scan_square (Script.fen_board "8/8/8/8/4p3/8/8/8") 4 4 0 = Some 80.
Proof.
  split; [|repeat split; vm_compute; reflexivity].
  intros t row col.
  destruct (getPositionBonus_symbol t row col) as (bonus & -> & ->). done.
Qed.

(** C7.  The score of a position and the scores of its colour-flipped
    mirror images (ranks exchanged; ranks and files exchanged), the side to
    move flipped: -40 against 95 and 95, not 40. *)
Theorem mirror_image_is_not_negated :
  evaluateBoard (Script.loaded Script.pawn_e4) = Some (-40)
  ∧ evaluateBoard (Script.loaded Script.pawn_e4_mirrored) = Some 95
  ∧ evaluateBoard (Script.loaded Script.pawn_e4_rotated) = Some 95.
Proof. repeat split; vm_compute; reflexivity. Qed.

(** ** The root of the search *)

(** C4.  With Black to move and the computer playing Black, [findBestMove]
    searches with the root maximizing: on [7k/8/5K2/6P1/8/8/8/8 b] at depth 1
    it returns Kg8, the move of the maximizing search (score 5), where the
    minimizing search returns Kh7 (score -5). *)
Theorem findBestMove_maximizes_for_Black :
  turn (Script.loaded Script.kp_black) = b
  ∧ fst <$> findBestMove 1 1 b (Script.only Script.kp_black)
    = Some (Some "Kg8")
  ∧ fst <$> minimax (Script.loaded Script.kp_black) 1 NegInfinity Infinity true
    = Some (mkResult (Num 5) (Some "Kg8"))
  ∧ fst <$> minimax (Script.loaded Script.kp_black) 1 NegInfinity Infinity false
    = Some (mkResult (Num (-5)) (Some "Kh7")).
Proof. repeat split; vm_compute; reflexivity. Qed.

(** ** The theorems at work on scripted positions *)

(** A search whose loop ends at the pruning test after the first move (the
    result is Kh7 with -5, not Kg8 with 5) leaves the instance as it was. *)
Lemma minimax_restores_position_witness :
  @RulesOracleLaws Script.oracle
  ∧ ∃ r g, minimax (Script.loaded Script.kp_black) 1 (Num (-10)) (Num (-7)) true
           = Some (r, g)
         ∧ g = Script.loaded Script.kp_black
         ∧ board g = board (Script.loaded Script.kp_black)
         ∧ turn g = turn (Script.loaded Script.kp_black)
         ∧ fen g = fen (Script.loaded Script.kp_black)
         ∧ moves g = moves (Script.loaded Script.kp_black).
Proof.
  split; [exact Script_laws|].
  exact (minimax_restores_position (H := Script.oracle) (Script.loaded Script.kp_black) 1
           (Num (-10)) (Num (-7)) true).
Defined.

Example minimax_pruned_search :
  minimax (Script.loaded Script.kp_black) 1 (Num (-10)) (Num (-7)) true
  = Some (mkResult (Num (-5)) (Some "Kh7"), Script.loaded Script.kp_black).
Proof. vm_compute. reflexivity. Qed.

(** Two plies deep with Black minimizing at the root, the search of the
    second root move is cut after its first reply (-30 against the bound
    -40); the result is that of the exhaustive search. *)
Lemma pruning_equivalence_witness :
  @RulesOracleLaws Script.oracle
  ∧ ∃ r, minimax (Script.loaded Script.kp_black) 2 NegInfinity Infinity false
         = Some (r, Script.loaded Script.kp_black)
       ∧ minimax_exhaustive (Script.loaded Script.kp_black) 2 false = Some r.
Proof.
  split; [exact Script_laws|].
  exact (pruning_equivalence (H := Script.oracle)
           (Script.loaded Script.kp_black) 2 false).
Defined.

Example minimax_two_plies :
  minimax (Script.loaded Script.kp_black) 2 NegInfinity Infinity false
  = Some (mkResult (Num (-40)) (Some "Kh7"), Script.loaded Script.kp_black)
  ∧ minimax_exhaustive (Script.loaded Script.kp_black) 2 false
    = Some (mkResult (Num (-40)) (Some "Kh7")).
Proof. split; vm_compute; reflexivity. Qed.

(** From the standard starting position, at depth 1 and maximizing, the
    returned move is one of the twenty first moves. *)
Lemma minimax_returns_legal_move_witness :
  isGameOver (Script.loaded Script.start) = false
  ∧ (1 ≤ 1)%nat
  ∧ length (moves (Script.loaded Script.start)) = 20%nat
  ∧ ∃ r m, minimax (Script.loaded Script.start) 1 NegInfinity Infinity true
           = Some (r, Script.loaded Script.start)
         ∧ m ∈ moves (Script.loaded Script.start)
         ∧ r_move r = Some (san m).
Proof.
  split; [reflexivity|]. split; [lia|]. split; [reflexivity|].
  apply (minimax_returns_legal_move (H := Script.oracle) (Script.loaded Script.start) 1
           NegInfinity Infinity true); [reflexivity | lia].
Defined.

Example minimax_first_move :
  minimax (Script.loaded Script.start) 1 NegInfinity Infinity true
  = Some (mkResult (Num (-230)) (Some "c3"), Script.loaded Script.start)
  ∧ "c3" ∈ san <$> moves (Script.loaded Script.start).
Proof. split; [vm_compute; reflexivity|]. vm_compute. do 4 right. left. Qed.

Lemma depth_zero_is_static_evaluation_witness :
  (∃ s, evaluateBoard (Script.loaded Script.start) = Some s
        ∧ minimax (Script.loaded Script.start) 0 NegInfinity Infinity true
          = Some (mkResult (Num s) None, Script.loaded Script.start))
  ∧ ∃ σ', findBestMove 1 0 b (Script.only Script.start)
          = Some (None, σ').
Proof.
  split.
  - exact (proj1 (depth_zero_is_static_evaluation (H := Script.oracle))
             (Script.loaded Script.start) NegInfinity Infinity true).
  - apply (proj2 (depth_zero_is_static_evaluation (H := Script.oracle))
             (Script.only Script.start) 1%positive b
             (Script.loaded Script.start)).
    vm_compute. reflexivity.
Defined.

Lemma findBestMove_leaves_game_unchanged_witness :
  Script.only Script.kp_black !! 1%positive = Some (Script.loaded Script.kp_black)
  ∧ ∃ mv copy σ',
      findBestMove 1 2 b (Script.only Script.kp_black) = Some (mv, σ')
      ∧ new_Chess (fen (Script.loaded Script.kp_black)) = Some copy
      ∧ σ' = <[fresh (dom (Script.only Script.kp_black)) := copy]>
               (Script.only Script.kp_black)
      ∧ σ' !! 1%positive = Some (Script.loaded Script.kp_black)
      ∧ (∀ l, l ∈ dom (Script.only Script.kp_black) →
           σ' !! l = Script.only Script.kp_black !! l).
Proof.
  split; [vm_compute; reflexivity|].
  apply (findBestMove_leaves_game_unchanged (H := Script.oracle)
           (Script.only Script.kp_black) 1%positive 2 b
           (Script.loaded Script.kp_black)).
  vm_compute. reflexivity.
Defined.

(** * Further properties of the agent and of its caller *)

(** ** The evaluator at the edges *)

Lemma for_each_None {A S : Type} (l1 l2 : list A) x (body : A → S → option S) s :
  (∀ s', body x s' = None) → for_each (l1 ++ x :: l2)%list body s = None.
Proof.
  intros Hx. revert s. induction l1 as [|y l1 IH]; intros s; simpl.
  - by rewrite Hx.
  - destruct (body y s); simpl; [apply IH|done].
Qed.

Lemma scan_square_total (bd : Board) row col score :
  (row < length bd)%nat → (row < 8)%nat → (col < 8)%nat →
  is_Some (scan_square bd row col score).
Proof.
  intros Hl Hr Hc. unfold scan_square.
  destruct (lookup_lt_is_Some_2 bd row Hl) as [cells ->]. simpl.
  destruct (cells !! col) as [[square|]|]; eauto.
  destruct (material_is_Some square) as [m ->]. simpl.
  destruct (getPositionBonus_is_Some (type square) row col Hr Hc) as [x ->].
  simpl. eauto.
Qed.

Lemma scan_board_rows (bd : Board) score :
  is_Some (scan_board bd score) ↔ (8 ≤ length bd)%nat.
Proof.
  split.
  - intros Hs. destruct (decide (8 ≤ length bd)%nat) as [|Hshort]; [done|].
    exfalso. assert (scan_board bd score = None) as Hn; [|rewrite Hn in Hs; by destruct Hs].
    assert (Hseq : seq 0 8 = (seq 0 (length bd) ++ length bd
                               :: seq (S (length bd)) (7 - length bd))%list).
    { replace 8%nat with (length bd + S (7 - length bd))%nat at 1 by lia.
      by rewrite seq_app. }
    unfold scan_board. rewrite Hseq at 1.
    apply for_each_None. intros s'. cbn [seq for_each]. unfold scan_square.
    rewrite (lookup_ge_None_2 bd (length bd)) by lia. reflexivity.
  - intros Hl. unfold scan_board. apply for_each_is_Some.
    intros row s Hrow. apply for_each_is_Some. intros col s' Hcol.
    apply list_elem_of_In, in_seq in Hrow, Hcol.
    apply scan_square_total; lia.
Qed.

(** X1.  On a position that is neither a checkmate nor a draw,
    [evaluateBoard] produces a score exactly when the board has its eight
    rows: a missing row makes the scan fail ([board[row]] is undefined),
    while rows of any length are accepted, an entry beyond the end of a row
    counting as an empty square. *)
Theorem evaluateBoard_needs_eight_rows `{RulesOracle} game :
  isCheckmate game = false →
  isDraw game || isStalemate game || isThreefoldRepetition game
    || isInsufficientMaterial game = false →
  is_Some (evaluateBoard game) ↔ (8 ≤ length (board game))%nat.
Proof.
  intros Hmate Hdraw. unfold evaluateBoard. rewrite Hmate, Hdraw.
  rewrite <- (scan_board_rows (board game) 0).
  destruct (scan_board (board game) 0); simpl; split; intros [? ?]; done || eauto.
Qed.

Lemma toUpperCase_symbol t : toUpperCase (toUpperCase (symbol t)) = toUpperCase (symbol t).
Proof. by destruct t. Qed.

(** X2.  [getPositionBonus] itself is antisymmetric under the mirror: for a
    square of the board, the bonus of the upper-case (White) letter on the
    mirrored row is the opposite of the bonus of the lower-case (Black)
    letter on the row, and both are entries of the table. *)
Theorem getPositionBonus_mirrors_by_case t row col :
  (row < 8)%nat → (col < 8)%nat →
  ∃ z, getPositionBonus (symbol t) row col = Some (- z)
     ∧ getPositionBonus (toUpperCase (symbol t)) (7 - row) col = Some z.
Proof.
  intros Hr Hc.
  destruct (POSITION_BONUSES_symbol t) as (bonus & Hb & Hl & Hall & Hne).
  destruct (table_at_is_Some bonus row col Hl Hall Hr Hc) as [z Hz].
  exists z. split.
  - destruct (getPositionBonus_symbol t row col) as (bonus' & Hb' & ->).
    assert (bonus' = bonus) as -> by congruence. by rewrite Hz.
  - unfold getPositionBonus. rewrite toUpperCase_symbol, Hb.
    rewrite decide_True by done. rewrite decide_True by lia.
    replace (7 - (7 - row))%nat with row by lia. done.
Qed.


Lemma toUpperCase_single s a :
  toUpperCase s = String a "" → ∃ c, s = String c "" ∧ toUpperCase_ascii c = a.
Proof.
  destruct s as [|c [|c' s]]; simpl; intros Heq; try discriminate.
  exists c. split; [done|]. by injection Heq.
Qed.

Lemma table_letter c :
  bool_decide (String (toUpperCase_ascii c) "" ∈ ["P"; "N"; "B"; "R"; "Q"; "K"]) = true →
  bool_decide (String c "" ∈ piece_letters) = true.
Proof.
  destruct c as [b0 b1 b2 b3 b4 b5 b6 b7];
    destruct b0, b1, b2, b3, b4, b5, b6, b7; vm_compute; exact id.
Qed.

Lemma POSITION_BONUSES_keys k :
  is_Some (POSITION_BONUSES !! k) → k ∈ ["P"; "N"; "B"; "R"; "Q"; "K"].
Proof.
  intros [x Hx]. destruct (decide (k ∈ ["P"; "N"; "B"; "R"; "Q"; "K"])) as [|Hn]; [done|].
  unfold POSITION_BONUSES in Hx. rewrite not_elem_of_list_to_map_1 in Hx; [done|].
  exact Hn.
Qed.

(** X3.  For every string that is not one of the twelve piece letters,
    [getPositionBonus] is 0, whatever the row and the column. *)
Theorem getPositionBonus_unknown_piece piece row col :
  piece ∉ piece_letters → getPositionBonus piece row col = Some 0.
Proof.
  intros Hn. unfold getPositionBonus.
  destruct (POSITION_BONUSES !! toUpperCase piece) as [bonus|] eqn:Hb; [|done].
  exfalso. apply Hn.
  assert (Hk : toUpperCase piece ∈ ["P"; "N"; "B"; "R"; "Q"; "K"])
    by (apply POSITION_BONUSES_keys; eauto).
  assert (∃ a, toUpperCase piece = String a "") as [a Ha].
  { repeat (apply elem_of_cons in Hk as [->|Hk]; [eauto|]). by apply elem_of_nil in Hk. }
  destruct (toUpperCase_single _ _ Ha) as (c & -> & Hc).
  apply (proj1 (bool_decide_eq_true _)), table_letter.
  apply (proj2 (bool_decide_eq_true _)). exact Hk.
Qed.

(** ** The searcher *)


Section More.
Context `{RulesOracleLaws}.

(** X4.  A finished game is not searched: at every depth and for every
    bounds [minimax] returns its static evaluation and no move, without
    touching the instance, and [findBestMove] returns [null] when the copy
    it loads is a finished game. *)
Theorem finished_game_is_not_searched :
  (∀ game depth alpha beta isMaximizingPlayer, isGameOver game = true →
     ∃ s, evaluateBoard game = Some s
        ∧ minimax game depth alpha beta isMaximizingPlayer
          = Some (mkResult (Num s) None, game))
  ∧ (∀ σ game depth computerColor g copy,
       σ !! game = Some g → new_Chess (fen g) = Some copy →
       isGameOver copy = true →
       ∃ σ', findBestMove game depth computerColor σ = Some (None, σ')).
Proof.
  assert (Hover : ∀ game depth alpha beta isMax, isGameOver game = true →
     ∃ s, evaluateBoard game = Some s
        ∧ minimax game depth alpha beta isMax = Some (mkResult (Num s) None, game)).
  { intros game depth alpha beta isMax Hover.
    destruct (evaluateBoard_is_Some game) as [s Hs]. exists s. split; [done|].
    destruct depth; simpl; rewrite ?Hover, Hs; done. }
  split; [done|].
  intros σ game depth c g copy Hg Hcopy Hfin.
  destruct (findBestMove_runs σ game depth c g Hg) as (copy' & r & Hcopy' & Hr & ->).
  assert (copy' = copy) as -> by congruence.
  destruct (Hover copy depth NegInfinity Infinity (bool_decide (turn copy = c)) Hfin)
    as (s & _ & Hs).
  rewrite Hs in Hr. simplify_eq. simpl. eauto.
Qed.

(** X5.  Entered with an empty window ([beta <= alpha]), [minimax] looks at
    the first legal move only: it returns that move with the score of the
    search below it, whatever the other moves are. *)
Theorem empty_window_takes_first_move game depth alpha beta isMaximizingPlayer m rest :
  num_le beta alpha = true → isGameOver game = false → moves game = m :: rest →
  ∃ child r,
    move game m = Some child
    ∧ minimax child depth alpha beta (negb isMaximizingPlayer) = Some (r, child)
    ∧ minimax game (S depth) alpha beta isMaximizingPlayer
      = Some (mkResult (score r) (Some (san m)), game).
Proof.
  intros Hle Hover Hmoves.
  destruct (move_legal game m) as [child Hchild]; [rewrite Hmoves; left|].
  destruct (minimax_runs child depth alpha beta (negb isMaximizingPlayer)) as [r Hr].
  destruct (minimax_picks _ _ _ _ _ _ _ Hr) as [[z Hz] _].
  exists child, r. do 2 (split; [done|]).
  simpl. rewrite Hover, Hmoves.
  destruct isMaximizingPlayer; simpl in *; rewrite Hchild; simpl; rewrite Hr; simpl;
    rewrite (undo_move _ _ _ Hchild), Hz; simpl.
  - assert (∀ x, num_le beta (Math_max alpha x) = true) as -> by (intros; num_lia).
    done.
  - assert (∀ x, num_le (Math_min beta x) alpha = true) as -> by (intros; num_lia).
    done.
Qed.

Lemma minimax_full_window game depth isMaximizingPlayer :
  ∃ r, minimax game depth NegInfinity Infinity isMaximizingPlayer = Some (r, game)
    ∧ minimax_exhaustive game depth isMaximizingPlayer = Some r.
Proof.
  destruct (minimax_sound depth game NegInfinity Infinity isMaximizingPlayer)
    as (r & v & Hr & Hv & Hb & Hmove); [done|].
  exists r. split; [done|]. rewrite Hv. f_equal.
  destruct (minimax_picks _ _ _ _ _ _ _ Hr) as [[z Hz] _].
  destruct r as [sr mr], v as [sv mvv]; simpl in *. subst sr.
  destruct Hb as (_ & Hin & _).
  rewrite Hin, Hmove by done. done.
Qed.

(** X6.  What a search inside bounds [alpha < beta] tells about the search
    with the bounds -Infinity and +Infinity: a score at or below [alpha] is
    an upper bound of the full score, a score at or above [beta] a lower
    bound, and a score strictly between the bounds comes with the very
    result of the full search, move included. *)
Theorem windowed_search_bounds game depth alpha beta isMaximizingPlayer :
  num_lt alpha beta = true →
  ∃ r v,
    minimax game depth alpha beta isMaximizingPlayer = Some (r, game)
    ∧ minimax game depth NegInfinity Infinity isMaximizingPlayer = Some (v, game)
    ∧ (num_le (score r) alpha = true → num_le (score v) (score r) = true)
    ∧ (num_lt alpha (score r) = true → num_lt (score r) beta = true → r = v)
    ∧ (num_le beta (score r) = true → num_le (score r) (score v) = true).
Proof.
  intros Hlt.
  destruct (minimax_sound depth game alpha beta isMaximizingPlayer Hlt)
    as (r & v & Hr & Hv & (Hlow & Hin & Hhigh) & Hmove).
  destruct (minimax_full_window game depth isMaximizingPlayer) as (v' & Hv' & Hx).
  assert (v' = v) as -> by congruence.
  exists r, v. do 2 (split; [done|]). split; [done|]. split; [|done].
  intros Ha Hb. specialize (Hin Ha Hb). specialize (Hmove Ha Hb).
  destruct r, v; simpl in *. by subst.
Qed.

(** The exhaustive loops pick the first move whose value is best. *)
Lemma best_max_first value game ms :
  (∀ m, m ∈ ms → ∃ g v, move game m = Some g ∧ value g = Some v) →
  ∀ s0 bm0 s bm, best_max value game ms s0 bm0 = Some (s, bm) →
  (s = s0 ∧ bm = bm0
   ∧ Forall (λ m', ∃ g v, move game m' = Some g ∧ value g = Some v
                     ∧ num_gt (score v) s = false) ms)
  ∨ (∃ before m after g v,
       ms = (before ++ m :: after)%list ∧ bm = Some m
       ∧ move game m = Some g ∧ value g = Some v ∧ score v = s
       ∧ num_gt s s0 = true
       ∧ Forall (λ m', ∃ g v, move game m' = Some g ∧ value g = Some v
                         ∧ num_gt s (score v) = true) before
       ∧ Forall (λ m', ∃ g v, move game m' = Some g ∧ value g = Some v
                         ∧ num_gt (score v) s = false) after).
Proof.
  induction ms as [|m1 ms IH]; intros Hall s0 bm0 s bm Hrun; simpl in Hrun.
  { left. by simplify_eq. }
  destruct (Hall m1) as (g1 & v1 & Hg1 & Hv1); [left|].
  rewrite Hg1 in Hrun. simpl in Hrun. rewrite Hv1 in Hrun. simpl in Hrun.
  assert (Hrest : ∀ m, m ∈ ms → ∃ g v, move game m = Some g ∧ value g = Some v)
    by (intros; apply Hall; by right).
  destruct (num_gt (score v1) s0) eqn:Egt.
  - destruct (IH Hrest _ _ _ _ Hrun)
      as [(-> & -> & Hafter)|(before & m & after & g & v & -> & -> & Hg & Hv & <- & Hgt & Hb & Ha)].
    + right. exists [], m1, ms, g1, v1. simpl. repeat split; try done.
    + right. exists (m1 :: before), m, after, g, v. simpl. repeat split; try done.
      * num_lia.
      * constructor; [|done]. exists g1, v1. repeat split; try done.
  - destruct (IH Hrest _ _ _ _ Hrun)
      as [(-> & -> & Hafter)|(before & m & after & g & v & -> & -> & Hg & Hv & <- & Hgt & Hb & Ha)].
    + left. repeat split; try done. constructor; [|done]. by exists g1, v1.
    + right. exists (m1 :: before), m, after, g, v. simpl. repeat split; try done.
      constructor; [|done]. exists g1, v1. repeat split; try done. num_lia.
Qed.

Lemma best_min_first value game ms :
  (∀ m, m ∈ ms → ∃ g v, move game m = Some g ∧ value g = Some v) →
  ∀ s0 bm0 s bm, best_min value game ms s0 bm0 = Some (s, bm) →
  (s = s0 ∧ bm = bm0
   ∧ Forall (λ m', ∃ g v, move game m' = Some g ∧ value g = Some v
                     ∧ num_lt (score v) s = false) ms)
  ∨ (∃ before m after g v,
       ms = (before ++ m :: after)%list ∧ bm = Some m
       ∧ move game m = Some g ∧ value g = Some v ∧ score v = s
       ∧ num_lt s s0 = true
       ∧ Forall (λ m', ∃ g v, move game m' = Some g ∧ value g = Some v
                         ∧ num_lt s (score v) = true) before
       ∧ Forall (λ m', ∃ g v, move game m' = Some g ∧ value g = Some v
                         ∧ num_lt (score v) s = false) after).
Proof.
  induction ms as [|m1 ms IH]; intros Hall s0 bm0 s bm Hrun; simpl in Hrun.
  { left. by simplify_eq. }
  destruct (Hall m1) as (g1 & v1 & Hg1 & Hv1); [left|].
  rewrite Hg1 in Hrun. simpl in Hrun. rewrite Hv1 in Hrun. simpl in Hrun.
  assert (Hrest : ∀ m, m ∈ ms → ∃ g v, move game m = Some g ∧ value g = Some v)
    by (intros; apply Hall; by right).
  destruct (num_lt (score v1) s0) eqn:Elt.
  - destruct (IH Hrest _ _ _ _ Hrun)
      as [(-> & -> & Hafter)|(before & m & after & g & v & -> & -> & Hg & Hv & <- & Hlt & Hb & Ha)].
    + right. exists [], m1, ms, g1, v1. simpl. repeat split; try done.
    + right. exists (m1 :: before), m, after, g, v. simpl. repeat split; try done.
      * num_lia.
      * constructor; [|done]. exists g1, v1. repeat split; try done.
  - destruct (IH Hrest _ _ _ _ Hrun)
      as [(-> & -> & Hafter)|(before & m & after & g & v & -> & -> & Hg & Hv & <- & Hlt & Hb & Ha)].
    + left. repeat split; try done. constructor; [|done]. by exists g1, v1.
    + right. exists (m1 :: before), m, after, g, v. simpl. repeat split; try done.
      constructor; [|done]. exists g1, v1. repeat split; try done. num_lia.
Qed.

Lemma exhaustive_is_full_window game depth isMaximizingPlayer v :
  minimax_exhaustive game depth isMaximizingPlayer = Some v →
  minimax game depth NegInfinity Infinity isMaximizingPlayer = Some (v, game).
Proof.
  intros Hv. destruct (minimax_full_window game depth isMaximizingPlayer)
    as (r & Hr & Hx). congruence.
Qed.

(** X7.  One ply of [minimax] with the bounds -Infinity and +Infinity on a
    game that is not over: the returned move is a legal move, the returned
    score is the score of the search below that move, every legal move
    listed before it has a strictly worse score for the player to move and
    no legal move listed after it has a better one. *)
Theorem minimax_picks_first_best game depth isMaximizingPlayer :
  isGameOver game = false →
  ∃ r before m after child rc,
    minimax game (S depth) NegInfinity Infinity isMaximizingPlayer = Some (r, game)
    ∧ moves game = (before ++ m :: after)%list
    ∧ r_move r = Some (san m)
    ∧ move game m = Some child
    ∧ minimax child depth NegInfinity Infinity (negb isMaximizingPlayer)
      = Some (rc, child)
    ∧ score rc = score r
    ∧ Forall (λ m', ∃ g v, move game m' = Some g
                ∧ minimax g depth NegInfinity Infinity (negb isMaximizingPlayer)
                  = Some (v, g)
                ∧ better isMaximizingPlayer (score r) (score v) = true) before
    ∧ Forall (λ m', ∃ g v, move game m' = Some g
                ∧ minimax g depth NegInfinity Infinity (negb isMaximizingPlayer)
                  = Some (v, g)
                ∧ better isMaximizingPlayer (score v) (score r) = false) after.
Proof.
  intros Hover.
  destruct (minimax_full_window game (S depth) isMaximizingPlayer) as (r & Hr & Hx).
  destruct (minimax_picks _ _ _ _ _ _ _ Hr) as [[z Hz] _].
  exists r. simpl in Hx. rewrite Hover in Hx.
  assert (Hall : ∀ b' m, m ∈ moves game →
            ∃ g v, move game m = Some g ∧ minimax_exhaustive g depth b' = Some v).
  { intros b' m Hm. destruct (move_legal game m Hm) as [g Hg].
    destruct (minimax_full_window g depth b') as (v & _ & Hv). eauto. }
  destruct isMaximizingPlayer; simpl in *.
  - destruct (best_max _ _ _ _ _) as [[s bm]|] eqn:Hbest; simpl in Hx; [|done].
    simplify_eq. simpl in *. subst s.
    apply best_max_first in Hbest as
      [(? & _)|(before & m & after & g & v & Hms & -> & Hg & Hv & Hs & _ & Hb & Ha)];
      [done| |exact (Hall false)].
    exists before, m, after, g, v. repeat split; try done.
    + by apply exhaustive_is_full_window.
    + eapply Forall_impl; [exact Hb|]. intros m' (g' & v' & ? & ? & ?).
      exists g', v'. repeat split; try done. by apply exhaustive_is_full_window.
    + eapply Forall_impl; [exact Ha|]. intros m' (g' & v' & ? & ? & ?).
      exists g', v'. repeat split; try done. by apply exhaustive_is_full_window.
  - destruct (best_min _ _ _ _ _) as [[s bm]|] eqn:Hbest; simpl in Hx; [|done].
    simplify_eq. simpl in *. subst s.
    apply best_min_first in Hbest as
      [(? & _)|(before & m & after & g & v & Hms & -> & Hg & Hv & Hs & _ & Hb & Ha)];
      [done| |exact (Hall true)].
    exists before, m, after, g, v. repeat split; try done.
    + by apply exhaustive_is_full_window.
    + eapply Forall_impl; [exact Hb|]. intros m' (g' & v' & ? & ? & ?).
      exists g', v'. repeat split; try done. by apply exhaustive_is_full_window.
    + eapply Forall_impl; [exact Ha|]. intros m' (g' & v' & ? & ? & ?).
      exists g', v'. repeat split; try done. by apply exhaustive_is_full_window.
Qed.

(** The score a loop returns is the running best it started from or the
    score of the search below one of the moves. *)
Lemma for_max_score search ms game :
  (∀ m g, move game m = Some g → ∀ a b', ∃ r, search g a b' = Some (r, g)) →
  ∀ alpha beta s0 bm0 s bm g',
    for_max search ms game alpha beta s0 bm0 = Some (s, bm, g') →
    s = s0 ∨ ∃ m g a b' r, m ∈ ms ∧ move game m = Some g
                        ∧ search g a b' = Some (r, g) ∧ score r = s.
Proof.
  intros Hsearch. induction ms as [|m ms IH]; intros alpha beta s0 bm0 s bm g' Hrun;
    simpl in Hrun.
  { left. by simplify_eq. }
  destruct (move game m) as [g|] eqn:Hg; simpl in Hrun; [|done].
  destruct (Hsearch m g Hg alpha beta) as [r Hr]. rewrite Hr in Hrun. simpl in Hrun.
  rewrite (undo_move _ _ _ Hg) in Hrun.
  assert (Hhere : ∃ m' g a b' r', m' ∈ m :: ms ∧ move game m' = Some g
                        ∧ search g a b' = Some (r', g) ∧ score r' = score r).
  { exists m, g, alpha, beta, r. repeat split; try done. left. }
  destruct (num_gt (score r) s0).
  - destruct (num_le beta _); [simplify_eq; by right|].
    apply IH in Hrun as [->|(m' & g1 & a & b' & r' & ? & ? & ? & ?)]; [by right|].
    right. exists m', g1, a, b', r'. repeat split; try done. by right.
  - destruct (num_le beta _); [simplify_eq; by left|].
    apply IH in Hrun as [->|(m' & g1 & a & b' & r' & ? & ? & ? & ?)]; [by left|].
    right. exists m', g1, a, b', r'. repeat split; try done. by right.
Qed.

Lemma for_min_score search ms game :
  (∀ m g, move game m = Some g → ∀ a b', ∃ r, search g a b' = Some (r, g)) →
  ∀ alpha beta s0 bm0 s bm g',
    for_min search ms game alpha beta s0 bm0 = Some (s, bm, g') →
    s = s0 ∨ ∃ m g a b' r, m ∈ ms ∧ move game m = Some g
                        ∧ search g a b' = Some (r, g) ∧ score r = s.
Proof.
  intros Hsearch. induction ms as [|m ms IH]; intros alpha beta s0 bm0 s bm g' Hrun;
    simpl in Hrun.
  { left. by simplify_eq. }
  destruct (move game m) as [g|] eqn:Hg; simpl in Hrun; [|done].
  destruct (Hsearch m g Hg alpha beta) as [r Hr]. rewrite Hr in Hrun. simpl in Hrun.
  rewrite (undo_move _ _ _ Hg) in Hrun.
  assert (Hhere : ∃ m' g a b' r', m' ∈ m :: ms ∧ move game m' = Some g
                        ∧ search g a b' = Some (r', g) ∧ score r' = score r).
  { exists m, g, alpha, beta, r. repeat split; try done. left. }
  destruct (num_lt (score r) s0).
  - destruct (num_le _ alpha); [simplify_eq; by right|].
    apply IH in Hrun as [->|(m' & g1 & a & b' & r' & ? & ? & ? & ?)]; [by right|].
    right. exists m', g1, a, b', r'. repeat split; try done. by right.
  - destruct (num_le _ alpha); [simplify_eq; by left|].
    apply IH in Hrun as [->|(m' & g1 & a & b' & r' & ? & ? & ? & ?)]; [by left|].
    right. exists m', g1, a, b', r'. repeat split; try done. by right.
Qed.

(** X8.  Whatever the bounds, the score [minimax] returns is the static
    evaluation of a leaf of the tree it walks: a position reached from the
    given one by legal moves, [depth] plies away or where the game is
    over. *)
Theorem minimax_score_is_a_leaf_evaluation game depth alpha beta isMaximizingPlayer :
  ∃ r leaf s,
    minimax game depth alpha beta isMaximizingPlayer = Some (r, game)
    ∧ leaf_of depth game leaf
    ∧ evaluateBoard leaf = Some s
    ∧ score r = Num s.
Proof.
  revert game alpha beta isMaximizingPlayer.
  induction depth as [|depth IH]; intros game alpha beta isMax.
  { simpl. destruct (evaluateBoard_is_Some game) as [s Hs]. rewrite Hs. simpl.
    exists (mkResult (Num s) None), game, s. repeat split; try done. constructor. }
  destruct (minimax_runs game (S depth) alpha beta isMax) as [r Hr].
  exists r. pose proof Hr as Hrun. simpl in Hr.
  destruct (isGameOver game) eqn:Hover.
  { destruct (evaluateBoard game) as [s|] eqn:Hs; simpl in Hr; [|done]. simplify_eq.
    exists game, s. repeat split; try done. by apply leaf_over. }
  destruct (minimax_picks _ _ _ _ _ _ _ Hrun) as [[z Hz] _].
  assert (Hchild : ∀ b' m g a b'' r', m ∈ moves game → move game m = Some g →
            minimax g depth a b'' b' = Some (r', g) →
            ∃ leaf s, leaf_of (S depth) game leaf ∧ evaluateBoard leaf = Some s
                      ∧ score r' = Num s).
  { intros b' m g a b'' r' Hm Hg Hr'.
    destruct (IH g a b'' b') as (r'' & leaf & s & Hr'' & Hleaf & Hs & Hscore).
    assert (r'' = r') as -> by congruence.
    exists leaf, s. repeat split; try done. by eapply leaf_move. }
  destruct isMax.
  - destruct (for_max _ _ _ _ _ _ _) as [[[s bm] g']|] eqn:Hloop; simpl in Hr; [|done].
    simplify_eq. simpl in *.
    apply for_max_score in Hloop as [->|(m & g & a & b' & r' & Hm & Hg & Hr' & <-)];
      [done| |intros; apply minimax_runs].
    destruct (Hchild false m g a b' r' Hm Hg Hr') as (leaf & s' & ? & ? & ?).
    by exists leaf, s'.
  - destruct (for_min _ _ _ _ _ _ _) as [[[s bm] g']|] eqn:Hloop; simpl in Hr; [|done].
    simplify_eq. simpl in *.
    apply for_min_score in Hloop as [->|(m & g & a & b' & r' & Hm & Hg & Hr' & <-)];
      [done| |intros; apply minimax_runs].
    destruct (Hchild true m g a b' r' Hm Hg Hr') as (leaf & s' & ? & ? & ?).
    by exists leaf, s'.
Qed.

(** X9.  [findBestMove] returns the move of the exhaustive search on the
    copy it loads, with the root maximizing exactly when the copy's side to
    move is [computerColor]; at depth 1 or more on a copy that is not over,
    that is the notation of a legal move of the copy. *)
Theorem findBestMove_is_the_exhaustive_choice σ game depth computerColor g :
  σ !! game = Some g →
  ∃ copy v σ',
    new_Chess (fen g) = Some copy
    ∧ minimax_exhaustive copy depth (bool_decide (turn copy = computerColor)) = Some v
    ∧ findBestMove game depth computerColor σ = Some (or_null (r_move v), σ')
    ∧ ((1 ≤ depth)%nat → isGameOver copy = false →
       ∃ m, m ∈ moves copy ∧ r_move v = Some (san m)).
Proof.
  intros Hg.
  destruct (findBestMove_runs σ game depth computerColor g Hg)
    as (copy & r & Hcopy & Hr & Hrun).
  destruct (minimax_full_window copy depth (bool_decide (turn copy = computerColor)))
    as (v & Hv & Hx).
  assert (v = r) as -> by congruence.
  exists copy, r, (<[fresh (dom σ) := copy]> σ). repeat split; try done.
  intros Hd Hover. destruct (minimax_picks _ _ _ _ _ _ _ Hr) as [_ Hm].
  apply Hm; [lia|done].
Qed.
End More.

(** ** The game component *)

Import Component.

Section ComponentFacts.
Context `{input : Component.MoveInput}.

Lemma fresh_frame (σ : store Chess) c l :
  l ∈ dom σ → <[fresh (dom σ) := c]> σ !! l = σ !! l.
Proof.
  intros Hl. apply lookup_insert_ne. intros <-. by apply (is_fresh (dom σ)).
Qed.

(** What a call of [makeMove] does to the state and to the instances. *)
Lemma makeMove_spec game move st σ g :
  σ !! game = Some g →
  ∃ ok st' σ',
    makeMove game move st σ = (ok, st', σ')
    ∧ (∀ l, l ∈ dom σ → σ' !! l = σ !! l)
    ∧ (ok = false → st' = st)
    ∧ (ok = true → ∃ c result c',
         new_Chess (fen g) = Some c
         ∧ move_object c move = Some (result, c')
         ∧ (Component.game st' ∉ dom σ)
         ∧ σ' !! Component.game st' = Some c'
         ∧ (moveHistory st' = (moveHistory st ++
             [mkHistoryMove (req_from move) (req_to move) (req_promotion move)
                            (san result)])%list)
         ∧ gameOver st' = gameOver st
         ∧ computerThinking st' = computerThinking st).
Proof.
  intros Hg. unfold makeMove. rewrite Hg.
  destruct (new_Chess (fen g)) as [c|] eqn:Hc.
  2: { exists false, st, σ. repeat split; try done. }
  destruct (move_object c move) as [[result c']|] eqn:Hm.
  2: { eexists false, st, _. repeat split; try done. intros. by apply fresh_frame. }
  eexists true, _, _. repeat split; try done.
  - intros. by apply fresh_frame.
  - intros _. exists c, result, c'. simpl. repeat split; try done.
    + apply is_fresh.
    + apply lookup_insert_eq.
Qed.

(** X10.  [makeMove] never changes an existing instance.  When it returns
    [false] the state is unchanged; when it returns [true] the request was
    played on a copy loaded from the game's FEN, the state holds that copy
    under a fresh identity, and the history has gained exactly one entry,
    with the squares and promotion of the request and the notation the
    library gave. *)
Theorem makeMove_outcome game move st σ g :
  σ !! game = Some g →
  ∃ ok st' σ',
    makeMove game move st σ = (ok, st', σ')
    ∧ (∀ l, l ∈ dom σ → σ' !! l = σ !! l)
    ∧ (ok = false → st' = st)
    ∧ (ok = true → ∃ c result c',
         new_Chess (fen g) = Some c
         ∧ move_object c move = Some (result, c')
         ∧ (Component.game st' ∉ dom σ)
         ∧ σ' !! Component.game st' = Some c'
         ∧ (moveHistory st' = (moveHistory st ++
             [mkHistoryMove (req_from move) (req_to move) (req_promotion move)
                            (san result)])%list)
         ∧ gameOver st' = gameOver st
         ∧ computerThinking st' = computerThinking st).
Proof. apply makeMove_spec. Qed.

(** X11.  The message the effect sets.  With the library's game over being
    checkmate, stalemate or draw, and its draw including stalemate: no
    message while the game goes on, the winner (the side not to move) on a
    checkmate, and "Draw!" on every other finished game, so that the
    messages for stalemate, repetition and insufficient material are never
    shown. *)
Theorem game_over_message st σ g :
  σ !! Component.game st = Some g →
  isGameOver g = isCheckmate g || isStalemate g || isDraw g →
  (isStalemate g = true → isDraw g = true) →
  (isGameOver g = false → gameOver (gameEffect st σ) = None)
  ∧ (isGameOver g = true → isCheckmate g = true →
     gameOver (gameEffect st σ)
     = Some (if decide (turn g = w) then "Checkmate! Black wins!"
             else "Checkmate! White wins!"))
  ∧ (isGameOver g = true → isCheckmate g = false →
     gameOver (gameEffect st σ) = Some "Draw!").
Proof.
  intros Hg Hover Hstale. unfold gameEffect. rewrite Hg.
  repeat split.
  - intros Hfin. rewrite Hfin. unfold makeComputerMove. rewrite Hg.
    destruct (_ && _); [|done]. by destruct (truthy _ || _).
  - intros Hfin Hmate. rewrite Hfin, Hmate. simpl. by destruct (decide _).
  - intros Hfin Hmate. rewrite Hfin, Hmate. simpl.
    rewrite Hover, Hmate in Hfin. simpl in Hfin.
    destruct (isDraw g) eqn:Hd; [done|].
    rewrite orb_false_r in Hfin. apply Hstale in Hfin. congruence.
Qed.

(** X12.  The effect starts the computer's timer only when the game is not
    over, it is not the player's turn, the computer is not thinking already
    and no game-over message is displayed; it then sets the thinking
    flag. *)
Theorem computer_is_started_only_on_its_turn st σ g :
  σ !! Component.game st = Some g →
  computerTimeout st = false →
  computerTimeout (gameEffect st σ) = true →
  isGameOver g = false ∧ turn g ≠ playerColor st
  ∧ computerThinking st = false ∧ truthy (gameOver st) = false
  ∧ computerThinking (gameEffect st σ) = true.
Proof.
  intros Hg Hidle. unfold gameEffect, makeComputerMove. rewrite Hg.
  destruct (isGameOver g); [done|].
  destruct (bool_decide (turn g ≠ playerColor st)) eqn:Hturn; simpl;
    [|by rewrite Hidle].
  destruct (computerThinking st) eqn:Hthink; simpl; [by rewrite Hidle|].
  destruct (truthy (gameOver st)) eqn:Hbanner; simpl; [by rewrite Hidle|].
  apply bool_decide_eq_true in Hturn.
  rewrite bool_decide_eq_false_2 by done. simpl. done.
Qed.

(** X14.  [onDrop] changes nothing and returns [false] when the piece is
    dropped off the board, when it is not the player's turn, while the
    computer is thinking or once a game-over message is displayed.  A drop
    that returns [true] was made on the player's turn and adds one entry to
    the history, recorded with the two squares and with a promotion to the
    queen, whether the move promotes or not. *)
Theorem onDrop_outcome sourceSquare targetSquare st σ g :
  σ !! Component.game st = Some g →
  ∃ ok st' σ',
    onDrop sourceSquare targetSquare st σ = (ok, st', σ')
    ∧ (∀ l, l ∈ dom σ → σ' !! l = σ !! l)
    ∧ (ok = false → st' = st)
    ∧ (ok = true →
       turn g = playerColor st ∧ computerThinking st = false
       ∧ truthy (gameOver st) = false
       ∧ ∃ t san, targetSquare = Some t
           ∧ moveHistory st'
             = (moveHistory st ++ [mkHistoryMove sourceSquare t (Some "q") san])%list).
Proof.
  intros Hg. unfold onDrop.
  destruct targetSquare as [t|]; [|by exists false, st, σ].
  rewrite Hg.
  destruct (bool_decide (turn g ≠ playerColor st)) eqn:Hturn; simpl;
    [by exists false, st, σ|].
  destruct (computerThinking st) eqn:Hthink; simpl; [by exists false, st, σ|].
  destruct (truthy (gameOver st)) eqn:Hbanner; simpl; [by exists false, st, σ|].
  destruct (makeMove_spec (Component.game st) (mkRequest sourceSquare t (Some "q"))
              st σ g Hg) as (ok & st' & σ' & Hmake & Hframe & Hno & Hyes).
  exists ok, st', σ'. do 3 (split; [done|]).
  intros Hok. destruct (Hyes Hok) as (c & result & c' & _ & _ & _ & _ & Hhist & _).
  split; [apply bool_decide_eq_false in Hturn; by apply dec_stable|].
  do 2 (split; [done|]). exists t, (san result). by split.
Qed.
End ComponentFacts.

Section ComponentLawful.
Context `{RulesOracleLaws} {input : MoveInput}.
Hypothesis fen_turn : ∀ g c, new_Chess (fen g) = Some c → turn c = turn g.

(** X13.  Whenever [makeComputerMove] starts its timer, the callback
    searches with the root maximizing, whichever colour the computer plays;
    the callback ends with the thinking flag down, changes no existing
    instance, leaves the state alone when the search recommends no move,
    and otherwise adds at most one entry to the history, together with a
    game of a fresh identity. *)
Theorem computer_searches_as_maximizer captured st0 st σ g :
  σ !! Component.game captured = Some g →
  computerTimeout st0 = false →
  computerTimeout (makeComputerMove captured st0 σ) = true →
  ∃ copy r σ1 st' σ',
    new_Chess (fen g) = Some copy
    ∧ minimax copy (searchDepth captured) NegInfinity Infinity true = Some (r, copy)
    ∧ computerChoice captured σ = Some (or_null (r_move r), σ1)
    ∧ computerTurn captured st σ = (st', σ')
    ∧ computerThinking st' = false
    ∧ (∀ l, l ∈ dom σ → σ' !! l = σ !! l)
    ∧ (or_null (r_move r) = None → st' = finished st)
    ∧ ((Component.game st' = Component.game st ∧ moveHistory st' = moveHistory st)
       ∨ ((Component.game st' ∉ dom σ)
          ∧ ∃ e, moveHistory st' = (moveHistory st ++ [e])%list)).
Proof.
  intros Hg Hidle Hstart.
  assert (Hturn : turn g ≠ playerColor captured).
  { unfold makeComputerMove in Hstart. rewrite Hg in Hstart.
    destruct (truthy _); simpl in Hstart; [congruence|].
    destruct (bool_decide (turn g = playerColor captured)) eqn:E; [congruence|].
    by apply bool_decide_eq_false in E. }
  unfold computerTurn, computerChoice.
  set (computerColor := if decide (playerColor captured = w) then b else w).
  destruct (findBestMove_runs σ (Component.game captured) (searchDepth captured)
              computerColor g Hg) as (copy & r & Hcopy & Hr & Hrun).
  assert (Hmax : bool_decide (turn copy = computerColor) = true).
  { apply bool_decide_eq_true. rewrite (fen_turn g copy Hcopy). unfold computerColor.
    by destruct (turn g), (playerColor captured). }
  rewrite Hmax in Hr. rewrite Hrun.
  set (σ1 := <[fresh (dom σ) := copy]> σ).
  assert (Hσ1 : ∀ l, l ∈ dom σ → σ1 !! l = σ !! l) by (intros; by apply fresh_frame).
  assert (Hg1 : σ1 !! Component.game captured = Some g).
  { rewrite Hσ1; [done|]. apply elem_of_dom. eauto. }
  assert (Hdom : dom σ ⊆ dom σ1) by (unfold σ1; rewrite dom_insert_L; set_solver).
  exists copy, r, σ1.
  destruct (or_null (r_move r)) as [bestMoveSan|] eqn:Hbest.
  2: { exists (finished st), σ1. repeat split; try done. by left. }
  destruct (decide (bestMoveSan = "")).
  { exists (finished st), σ1. repeat split; try done. by left. }
  rewrite Hg1, Hcopy.
  destruct (move_san copy bestMoveSan) as [[moveObj c]|] eqn:Hsan.
  2: { eexists (finished st), _. repeat split; try done.
       - intros l Hl. rewrite fresh_frame; [by apply Hσ1|]. by apply Hdom.
       - by left. }
  set (σ2 := <[fresh (dom σ1) := c]> σ1).
  assert (Hσ2 : ∀ l, l ∈ dom σ1 → σ2 !! l = σ1 !! l) by (intros; by apply fresh_frame).
  assert (Hg2 : σ2 !! Component.game captured = Some g).
  { rewrite Hσ2; [done|]. apply elem_of_dom. eauto. }
  assert (Hdom2 : dom σ1 ⊆ dom σ2).
  { apply subseteq_dom, insert_subseteq. apply not_elem_of_dom, is_fresh. }
  destruct (makeMove_spec (Component.game captured)
              (mkRequest (from moveObj) (to moveObj) (symbol <$> promotion moveObj))
              st σ2 g Hg2) as (ok & st' & σ' & Hmake & Hframe & Hno & Hyes).
  rewrite Hmake.
  exists (finished st'), σ'. repeat split; try done.
  - intros l Hl. rewrite Hframe, Hσ2, Hσ1; auto.
  - destruct ok.
    + right. destruct (Hyes eq_refl) as (c1 & result & c2 & _ & _ & Hnew & _ & Hhist & _).
      simpl. split; [|eauto]. intros Hin. apply Hnew. auto.
    + left. by rewrite (Hno eq_refl).
Qed.
End ComponentLawful.

(** ** The further properties at work on scripted positions *)

Lemma Script_fen_turn (g c : Script.Instance) :
  new_Chess (fen g) = Some c → turn c = turn g.
Proof. intros [= <-]. reflexivity. Qed.

Lemma evaluateBoard_needs_eight_rows_witness :
  is_Some (evaluateBoard (Script.loaded Script.kp_black))
  ↔ (8 ≤ length (board (Script.loaded Script.kp_black)))%nat.
Proof.
  exact (evaluateBoard_needs_eight_rows (H := Script.oracle)
           (Script.loaded Script.kp_black) eq_refl eq_refl).
Defined.

Lemma getPositionBonus_mirrors_by_case_witness :
  ∃ z, getPositionBonus (symbol PAWN) 4 4 = Some (- z)
     ∧ getPositionBonus (toUpperCase (symbol PAWN)) (7 - 4) 4 = Some z.
Proof. apply (getPositionBonus_mirrors_by_case PAWN 4 4); lia. Defined.

Lemma getPositionBonus_unknown_piece_witness :
  getPositionBonus "x" 9 9 = Some 0.
Proof.
  apply (getPositionBonus_unknown_piece "x" 9 9).
  apply (bool_decide_unpack _). vm_compute. exact I.
Defined.

Lemma finished_game_is_not_searched_witness :
  (∃ s, evaluateBoard (Script.loaded Script.mated) = Some s
        ∧ minimax (Script.loaded Script.mated) 3 NegInfinity Infinity true
          = Some (mkResult (Num s) None, Script.loaded Script.mated))
  ∧ ∃ σ', findBestMove 1 3 w (Script.only Script.mated) = Some (None, σ').
Proof.
  split.
  - apply (proj1 (finished_game_is_not_searched (H := Script.oracle))).
    reflexivity.
  - apply (proj2 (finished_game_is_not_searched (H := Script.oracle))
             (Script.only Script.mated) 1%positive 3%nat w
             (Script.loaded Script.mated) (Script.loaded Script.mated));
      reflexivity.
Defined.

Lemma empty_window_takes_first_move_witness :
  ∃ child r,
    move (Script.loaded Script.kp_black) (Script.K "h8" "h7") = Some child
    ∧ minimax child 0 (Num 0) (Num 0) false = Some (r, child)
    ∧ minimax (Script.loaded Script.kp_black) 1 (Num 0) (Num 0) true
      = Some (mkResult (score r) (Some "Kh7"), Script.loaded Script.kp_black).
Proof.
  apply (empty_window_takes_first_move (H := Script.oracle)
           (Script.loaded Script.kp_black) 0 (Num 0) (Num 0) true
           (Script.K "h8" "h7") [Script.K "h8" "g8"]); reflexivity.
Defined.

Lemma windowed_search_bounds_witness :
  ∃ r v,
    minimax (Script.loaded Script.kp_black) 2 (Num (-45)) (Num (-35)) false
    = Some (r, Script.loaded Script.kp_black)
    ∧ minimax (Script.loaded Script.kp_black) 2 NegInfinity Infinity false
      = Some (v, Script.loaded Script.kp_black)
    ∧ (num_le (score r) (Num (-45)) = true → num_le (score v) (score r) = true)
    ∧ (num_lt (Num (-45)) (score r) = true → num_lt (score r) (Num (-35)) = true →
       r = v)
    ∧ (num_le (Num (-35)) (score r) = true → num_le (score r) (score v) = true).
Proof.
  apply (windowed_search_bounds (H := Script.oracle)
           (Script.loaded Script.kp_black) 2 (Num (-45)) (Num (-35)) false).
  reflexivity.
Defined.

Lemma minimax_picks_first_best_witness :
  ∃ r before m after child rc,
    minimax (Script.loaded Script.kp_black) 2 NegInfinity Infinity true
    = Some (r, Script.loaded Script.kp_black)
    ∧ moves (Script.loaded Script.kp_black) = (before ++ m :: after)%list
    ∧ r_move r = Some (san m)
    ∧ move (Script.loaded Script.kp_black) m = Some child
    ∧ minimax child 1 NegInfinity Infinity false = Some (rc, child)
    ∧ score rc = score r
    ∧ Forall (λ m', ∃ g v, move (Script.loaded Script.kp_black) m' = Some g
                ∧ minimax g 1 NegInfinity Infinity false = Some (v, g)
                ∧ better true (score r) (score v) = true) before
    ∧ Forall (λ m', ∃ g v, move (Script.loaded Script.kp_black) m' = Some g
                ∧ minimax g 1 NegInfinity Infinity false = Some (v, g)
                ∧ better true (score v) (score r) = false) after.
Proof.
  apply (minimax_picks_first_best (H := Script.oracle)
           (Script.loaded Script.kp_black) 1 true).
  reflexivity.
Defined.

Lemma minimax_score_is_a_leaf_evaluation_witness :
  @RulesOracleLaws Script.oracle
  ∧ ∃ r leaf s,
      minimax (Script.loaded Script.kp_black) 2 NegInfinity Infinity false
      = Some (r, Script.loaded Script.kp_black)
      ∧ leaf_of 2 (Script.loaded Script.kp_black) leaf
      ∧ evaluateBoard leaf = Some s
      ∧ score r = Num s.
Proof.
  split; [exact Script_laws|].
  exact (minimax_score_is_a_leaf_evaluation (H := Script.oracle)
           (Script.loaded Script.kp_black) 2 NegInfinity Infinity false).
Defined.

Lemma findBestMove_is_the_exhaustive_choice_witness :
  ∃ copy v σ',
    new_Chess (fen (Script.loaded Script.kp_black)) = Some copy
    ∧ minimax_exhaustive copy 2 (bool_decide (turn copy = b)) = Some v
    ∧ findBestMove 1 2 b (Script.only Script.kp_black)
      = Some (or_null (r_move v), σ')
    ∧ ((1 ≤ 2)%nat → isGameOver copy = false →
       ∃ m, m ∈ moves copy ∧ r_move v = Some (san m)).
Proof.
  apply (findBestMove_is_the_exhaustive_choice (H := Script.oracle)
           (Script.only Script.kp_black) 1%positive 2 b
           (Script.loaded Script.kp_black)).
  reflexivity.
Defined.

Lemma makeMove_outcome_witness :
  ∃ ok st' σ',
    makeMove 1 (mkRequest "h8" "h7" None) (ScriptInput.idle b)
             (Script.only Script.kp_black) = (ok, st', σ')
    ∧ (∀ l, l ∈ dom (Script.only Script.kp_black) →
         σ' !! l = Script.only Script.kp_black !! l)
    ∧ (ok = false → st' = ScriptInput.idle b)
    ∧ (ok = true → ∃ c result c',
         new_Chess (fen (Script.loaded Script.kp_black)) = Some c
         ∧ move_object c (mkRequest "h8" "h7" None) = Some (result, c')
         ∧ (Component.game st' ∉ dom (Script.only Script.kp_black))
         ∧ σ' !! Component.game st' = Some c'
         ∧ (moveHistory st' = (moveHistory (ScriptInput.idle b) ++
             [mkHistoryMove "h8" "h7" None (san result)])%list)
         ∧ gameOver st' = gameOver (ScriptInput.idle b)
         ∧ computerThinking st' = computerThinking (ScriptInput.idle b)).
Proof.
  apply (makeMove_outcome (H := Script.oracle) (input := ScriptInput.input)
           1%positive (mkRequest "h8" "h7" None) (ScriptInput.idle b)
           (Script.only Script.kp_black) (Script.loaded Script.kp_black)).
  reflexivity.
Defined.

Lemma game_over_message_witness :
  gameOver (gameEffect (ScriptInput.idle w) (Script.only Script.mated))
  = Some "Checkmate! White wins!"
  ∧ gameOver (gameEffect (ScriptInput.idle w) (Script.only Script.stalemated))
    = Some "Draw!".
Proof.
  split.
  - refine (proj1 (proj2 (game_over_message (H := Script.oracle)
              (ScriptInput.idle w) (Script.only Script.mated)
              (Script.loaded Script.mated) eq_refl eq_refl _))
              eq_refl eq_refl).
    simpl. discriminate.
  - exact (proj2 (proj2 (game_over_message (H := Script.oracle)
              (ScriptInput.idle w) (Script.only Script.stalemated)
              (Script.loaded Script.stalemated) eq_refl eq_refl
              (λ _, eq_refl)))
              eq_refl eq_refl).
Defined.

Lemma computer_is_started_only_on_its_turn_witness :
  isGameOver (Script.loaded Script.kp_black) = false
  ∧ turn (Script.loaded Script.kp_black) ≠ playerColor (ScriptInput.idle w)
  ∧ computerThinking (ScriptInput.idle w) = false
  ∧ truthy (gameOver (ScriptInput.idle w)) = false
  ∧ computerThinking (gameEffect (ScriptInput.idle w) (Script.only Script.kp_black))
    = true.
Proof.
  apply (computer_is_started_only_on_its_turn (H := Script.oracle)
           (ScriptInput.idle w)
           (Script.only Script.kp_black) (Script.loaded Script.kp_black));
    reflexivity.
Defined.

Lemma computer_searches_as_maximizer_witness :
  ∃ copy r σ1 st' σ',
    new_Chess (fen (Script.loaded Script.kp_black)) = Some copy
    ∧ minimax copy (searchDepth (ScriptInput.idle w)) NegInfinity Infinity true
      = Some (r, copy)
    ∧ computerChoice (ScriptInput.idle w) (Script.only Script.kp_black)
      = Some (or_null (r_move r), σ1)
    ∧ computerTurn (ScriptInput.idle w) (ScriptInput.idle w)
        (Script.only Script.kp_black) = (st', σ')
    ∧ computerThinking st' = false
    ∧ (∀ l, l ∈ dom (Script.only Script.kp_black) →
         σ' !! l = Script.only Script.kp_black !! l)
    ∧ (or_null (r_move r) = None → st' = finished (ScriptInput.idle w))
    ∧ ((Component.game st' = Component.game (ScriptInput.idle w)
        ∧ moveHistory st' = moveHistory (ScriptInput.idle w))
       ∨ ((Component.game st' ∉ dom (Script.only Script.kp_black))
          ∧ ∃ e, moveHistory st' = (moveHistory (ScriptInput.idle w) ++ [e])%list)).
Proof.
  apply (computer_searches_as_maximizer (H := Script.oracle)
           (input := ScriptInput.input) Script_fen_turn
           (ScriptInput.idle w) (ScriptInput.idle w) (ScriptInput.idle w)
           (Script.only Script.kp_black) (Script.loaded Script.kp_black));
    reflexivity.
Defined.

(** Black, played by the computer at depth 2, answers with Kg8, the move of
    the maximizing search; the game in the state becomes the instance 4,
    after the copy of the search (2) and the copy that read the notation
    (3). *)
Example computerTurn_plays :
  (computerTurn (ScriptInput.idle w) (ScriptInput.idle w)
     (Script.only Script.kp_black)).1
  = mkState 4 [mkHistoryMove "h8" "g8" None "Kg8"] None w false 2 false.
Proof. vm_compute. reflexivity. Qed.

Lemma onDrop_outcome_witness :
  ∃ ok st' σ',
    onDrop "h8" (Some "h7") (ScriptInput.idle b) (Script.only Script.kp_black)
    = (ok, st', σ')
    ∧ (∀ l, l ∈ dom (Script.only Script.kp_black) →
         σ' !! l = Script.only Script.kp_black !! l)
    ∧ (ok = false → st' = ScriptInput.idle b)
    ∧ (ok = true →
       turn (Script.loaded Script.kp_black) = playerColor (ScriptInput.idle b)
       ∧ computerThinking (ScriptInput.idle b) = false
       ∧ truthy (gameOver (ScriptInput.idle b)) = false
       ∧ ∃ t san, Some "h7" = Some t
           ∧ moveHistory st'
             = (moveHistory (ScriptInput.idle b)
                ++ [mkHistoryMove "h8" t (Some "q") san])%list).
Proof.
  apply (onDrop_outcome (H := Script.oracle) (input := ScriptInput.input)
           "h8" (Some "h7") (ScriptInput.idle b)
           (Script.only Script.kp_black) (Script.loaded Script.kp_black)).
  reflexivity.
Defined.
